(** * Gradient reading transformer of readest-app

    A shallow embedding of
    [apps/readest-app/src/services/transformers/gradient.ts] (both revisions
    of the file: the one that wraps the paragraph body in a [g-clip] span and
    the one that only adds classes), with the properties of its
    specification.

    JavaScript strings are sequences of UTF-16 code units; a code unit is a
    number [N] here and a string a list of them.  The three regular
    expressions of the source are written out as the first-match functions
    they denote. *)

From Stdlib Require Import NArith List Bool Arith Lia String Ascii.
From Stdlib Require Import DecimalString.
Import ListNotations.

Local Open Scope N_scope.
Local Open Scope list_scope.

(** ** Strings *)

Abbreviation code_unit := N (only parsing).
Abbreviation jsstring := (list N) (only parsing).

(** A literal of the source, from its ASCII text. *)
Definition js (s : string) : jsstring :=
  map N_of_ascii (list_ascii_of_string s).

(** The double quote, U+0022. *)
Definition dq : code_unit := 34.

(** [quoted s] is [s] between double quotes. *)
Definition quoted (s : jsstring) : jsstring := dq :: s ++ [dq].

(** Template-literal conversion of a non-negative integer: its decimal
    digits. *)
Definition number_to_string (n : nat) : jsstring :=
  js (NilZero.string_of_uint (Nat.to_uint n)).

(** ** Regular-expression pieces *)

Module Regex.

(** Canonicalize of a case-insensitive, non-unicode regular expression,
    on the code units that can equal an ASCII pattern character: lower-case
    ASCII letters go to upper case, and a code unit from 128 on never
    canonicalizes to an ASCII one. *)
Definition canon (c : code_unit) : code_unit :=
  if (97 <=? c) && (c <=? 122) then c - 32 else c.

Definition eq_ci (a b : code_unit) : bool := canon a =? canon b.

(** [strip eqc pat s]: the literal [pat] matched at the start of [s]; the
    text it matched and what follows. *)
Fixpoint strip (eqc : code_unit -> code_unit -> bool)
    (pat s : jsstring) : option (jsstring * jsstring) :=
  match pat with
  | [] => Some ([], s)
  | p :: pat' =>
      match s with
      | [] => None
      | c :: s' =>
          if eqc p c then
            match strip eqc pat' s' with
            | Some (m, r) => Some (c :: m, r)
            | None => None
            end
          else None
      end
  end.

(** [split_at stop s]: the longest prefix of [s] free of [stop] code units,
    provided a [stop] code unit follows it; that prefix and what comes after
    the [stop] code unit.  This is a greedy negated class followed by one
    character of the class, as in [[^>]*>]. *)
Fixpoint split_at (stop : code_unit -> bool) (s : jsstring)
    : option (jsstring * jsstring) :=
  match s with
  | [] => None
  | c :: s' =>
      if stop c then Some ([], s')
      else match split_at stop s' with
           | Some (a, r) => Some (c :: a, r)
           | None => None
           end
  end.

(** [\s]: WhiteSpace and LineTerminator code units. *)
Definition is_space (c : code_unit) : bool :=
  existsb (N.eqb c)
    [9; 10; 11; 12; 13; 32; 160; 5760; 8232; 8233; 8239; 8287; 12288; 65279]
  || ((8192 <=? c) && (c <=? 8202)).

(** [\w]: the word characters of [\b]. *)
Definition is_word (c : code_unit) : bool :=
  ((48 <=? c) && (c <=? 57)) || ((65 <=? c) && (c <=? 90))
  || ((97 <=? c) && (c <=? 122)) || (c =? 95).

End Regex.

Import Regex.

(** ** The paragraph pattern

    The pattern of [ctx.content.replace], flags [gi]: the literal [<p], group
    1 [[^>]*], the literal [>], group 2 [[\s\S]*?] (lazy), the literal
    [<\/p>]. *)

Definition is_gt (c : code_unit) : bool := c =? 62.

(** The closing tag at the start of [s], in either case: its text and
    what follows. *)
Definition starts_close (s : jsstring) : option (jsstring * jsstring) :=
  strip eq_ci (js "</p>") s.

(** Group 2 and the closing tag: the shortest prefix followed by a closing
    tag; that prefix, the text of the closing tag and what comes after. *)
Fixpoint split_close (s : jsstring)
    : option (jsstring * jsstring * jsstring) :=
  match starts_close s with
  | Some (cl, r) => Some ([], cl, r)
  | None =>
      match s with
      | [] => None
      | c :: s' =>
          match split_close s' with
          | Some (i, cl, r) => Some (c :: i, cl, r)
          | None => None
          end
      end
  end.

(** One match: the matched text and the two groups. *)
Record pmatch := {
  whole : jsstring;
  attrs : jsstring;
  inner : jsstring
}.

(** The whole pattern at the start of [s]: the match and the rest of the
    string after it. *)
Definition match_p (s : jsstring) : option (pmatch * jsstring) :=
  match strip eq_ci (js "<p") s with
  | None => None
  | Some (op, t) =>
      match split_at is_gt t with
      | None => None
      | Some (a, t2) =>
          match split_close t2 with
          | None => None
          | Some (i, cl, rest) =>
              Some ({| whole := op ++ a ++ js ">" ++ i ++ cl;
                       attrs := a; inner := i |}, rest)
          end
      end
  end.

(** ** [String.prototype.replace] with a global pattern and a callback

    The replace method first collects every match, left to right, each
    search starting where the match before it ended (a match is never empty
    here), and then calls the callback on the matches in that order, copying
    the text between them.  [scan] is the first half: the matches, [Blk], and
    the code units between them, [Lit]. *)

Inductive segment :=
| Lit (c : code_unit)
| Blk (m : pmatch).

Fixpoint scan_fuel (fuel : nat) (s : jsstring) : list segment :=
  match fuel with
  | O => map Lit s
  | S fuel' =>
      match s with
      | [] => []
      | c :: s' =>
          match match_p s with
          | Some (m, rest) => Blk m :: scan_fuel fuel' rest
          | None => Lit c :: scan_fuel fuel' s'
          end
      end
  end.

Definition scan (s : jsstring) : list segment :=
  scan_fuel (List.length s) s.

(** The callback of the source reads and increments a variable of the
    enclosing call; the variable is the state [St] threaded through the
    calls. *)

Section Replace.

Context {St : Type}.
Variable f : St -> jsstring -> jsstring -> jsstring * St.

Fixpoint render (st : St) (segs : list segment) : jsstring * St :=
  match segs with
  | [] => ([], st)
  | Lit c :: segs' =>
      let (tl, st') := render st segs' in (c :: tl, st')
  | Blk m :: segs' =>
      let (out, st') := f st (attrs m) (inner m) in
      let (tl, st'') := render st' segs' in
      (out ++ tl, st'')
  end.

Definition replace_p (st : St) (s : jsstring) : jsstring * St :=
  render st (scan s).

End Replace.

(** ** The class pattern

    [classRegex], flag [i]: the literal [class=], a double quote, group 1 (the
    longest run without a double quote), a double quote. *)

Definition is_dq (c : code_unit) : bool := c =? dq.

(** The pattern at the start of [s]: the group and what follows the match. *)
Definition class_at (s : jsstring) : option (jsstring * jsstring) :=
  match strip eq_ci (js "class=" ++ [dq]) s with
  | None => None
  | Some (_, t) => split_at is_dq t
  end.

(** The first match in [s]: what precedes it, the group, what follows. *)
Fixpoint class_match (s : jsstring)
    : option (jsstring * jsstring * jsstring) :=
  match class_at s with
  | Some (classes, after) => Some ([], classes, after)
  | None =>
      match s with
      | [] => None
      | c :: s' =>
          match class_match s' with
          | Some (before, classes, after) => Some (c :: before, classes, after)
          | None => None
          end
      end
  end.

(** [classRegex.test(attrs)] *)
Definition classRegex_test (attrs : jsstring) : bool :=
  match class_match attrs with Some _ => true | None => false end.

(** The [if (classRegex.test(attrs)) ... else ...] of both revisions, with
    the tokens [extra] to add: the first match is replaced by [class=] and,
    between double quotes, group 1, a space and [extra]; without a match a
    space, [class=] and [extra] between double quotes are appended. *)
Definition add_class (extra attrs : jsstring) : jsstring :=
  match class_match attrs with
  | Some (before, classes, after) =>
      before ++ js "class=" ++ quoted (classes ++ js " " ++ extra) ++ after
  | None => attrs ++ js " class=" ++ quoted extra
  end.

(** ** The clip pattern

    The pattern of [hasClip], no flags: the literal [<span], [\s+], the literal
    [class=], one quote (double or single), a run without quotes, [\bg-clip\b],
    a run without quotes, one quote.  The two runs and the word between them
    make up the whole text between the opening quote and the next quote. *)

Definition is_quote (c : code_unit) : bool := (c =? 34) || (c =? 39).

(** The longest prefix of [s] whose code units satisfy [keep], and the
    rest. *)
Fixpoint span_of (keep : code_unit -> bool) (s : jsstring)
    : jsstring * jsstring :=
  match s with
  | [] => ([], [])
  | c :: s' =>
      if keep c then let (a, r) := span_of keep s' in (c :: a, r)
      else ([], s)
  end.

(** [\bg-clip\b] somewhere in [run], the text between the quotes: [prev] is
    the code unit before [run] and the closing quote, not a word character,
    comes after it. *)
Fixpoint clip_in (prev : code_unit) (run : jsstring) : bool :=
  match run with
  | [] => false
  | c :: run' =>
      (negb (is_word prev)
       && match strip N.eqb (js "g-clip") run with
          | Some (_, n :: _) => negb (is_word n)
          | Some (_, []) => true
          | None => false
          end)
      || clip_in c run'
  end.

(** The pattern at the start of [s]. *)
Definition clip_at (s : jsstring) : bool :=
  match strip N.eqb (js "<span") s with
  | None => false
  | Some (_, t) =>
      match span_of is_space t with
      | ([], _) => false
      | (_ :: _, t2) =>
          match strip N.eqb (js "class=") t2 with
          | Some (_, q :: t3) =>
              is_quote q &&
              match span_of (fun c => negb (is_quote c)) t3 with
              | (run, _ :: _) => clip_in q run
              | (_, []) => false
              end
          | _ => false
          end
      end
  end.

(** [regex.test(inner)]: the pattern somewhere in [s]. *)
Fixpoint hasClip (s : jsstring) : bool :=
  clip_at s ||
  match s with
  | [] => false
  | _ :: s' => hasClip s'
  end.

(** ** The transformer *)

Record ViewSettings := { gradientEnabled : option bool }.

Record TransformContext := {
  content : jsstring;
  viewSettings : ViewSettings
}.

(** [!ctx.viewSettings.gradientEnabled]: an absent flag is [undefined]. *)
Definition flag_off (v : ViewSettings) : bool :=
  match gradientEnabled v with
  | Some true => false
  | _ => true
  end.

(** The revision that adds classes only. *)
Module ClassesOnly.

Definition callback (paragraphIndex : nat) (attrs inner : jsstring)
    : jsstring * nat :=
  let gradientClass :=
    js "g-line g-l" ++ number_to_string (paragraphIndex mod 4)%nat in
  let paragraphIndex := (paragraphIndex + 1)%nat in
  let attrs := add_class gradientClass attrs in
  (js "<p" ++ attrs ++ js ">" ++ inner ++ js "</p>", paragraphIndex).

Definition transform (ctx : TransformContext) : jsstring :=
  if flag_off (viewSettings ctx) then content ctx
  else
    let paragraphIndex := 0%nat in
    fst (replace_p callback paragraphIndex (content ctx)).

End ClassesOnly.

(** The revision that also wraps the paragraph body in a [g-clip] span. *)
Module Wrapper.

Definition callback (paragraphIndex : nat) (attrs inner : jsstring)
    : jsstring * nat :=
  let lineClass := js "g-line" in
  let shadeClass := js "g-l" ++ number_to_string (paragraphIndex mod 4)%nat in
  let paragraphIndex := (paragraphIndex + 1)%nat in
  let attrs := add_class lineClass attrs in
  let wrappedInner :=
    if hasClip inner then inner
    else js "<span class=" ++ quoted (js "g-clip " ++ shadeClass)
         ++ js ">" ++ inner ++ js "</span>" in
  (js "<p" ++ attrs ++ js ">" ++ wrappedInner ++ js "</p>", paragraphIndex).

Definition transform (ctx : TransformContext) : jsstring :=
  if flag_off (viewSettings ctx) then content ctx
  else
    let paragraphIndex := 0%nat in
    fst (replace_p callback paragraphIndex (content ctx)).

End Wrapper.

(** A context with the feature flag on. *)
Definition on (c : jsstring) : TransformContext :=
  {| content := c; viewSettings := {| gradientEnabled := Some true |} |}.

(** ** The counter as a variable in a store

    [let paragraphIndex = 0] makes a new variable at every call of
    [transform], and the callback, a closure, reads and writes that
    variable.  Here the variables of the program are the cells of a store
    that one call hands to the next: a call puts the cell of its counter at
    the end of the store it finds. *)

(** Writing [v] into the cell [addr]. *)
Definition update_cell (addr v : nat) (store : list nat) : list nat :=
  firstn addr store ++ v :: skipn (S addr) store.

(** A callback whose counter is the cell [addr]. *)
Definition callback_at
    (callback : nat -> jsstring -> jsstring -> jsstring * nat)
    (addr : nat) (store : list nat) (attrs inner : jsstring)
    : jsstring * list nat :=
  let (out, paragraphIndex) := callback (nth addr store 0%nat) attrs inner in
  (out, update_cell addr paragraphIndex store).

(** [transform] of either revision in a store: what it returns and the
    store it leaves.  With the flag off it returns before the counter is
    declared; otherwise [paragraphIndex] is the address of the new cell, set
    to 0, and the callback handed to [replace] works on that cell. *)
Definition transform_in
    (callback : nat -> jsstring -> jsstring -> jsstring * nat)
    (ctx : TransformContext) (store : list nat) : jsstring * list nat :=
  if flag_off (viewSettings ctx) then (content ctx, store)
  else
    let paragraphIndex := List.length store in
    replace_p (callback_at callback paragraphIndex) (store ++ [0%nat])
      (content ctx).

(** Calls one after the other, each in the store the one before left. *)
Fixpoint session_in
    (callback : nat -> jsstring -> jsstring -> jsstring * nat)
    (calls : list TransformContext) (store : list nat)
    : list jsstring * list nat :=
  match calls with
  | [] => ([], store)
  | ctx :: calls' =>
      let (out, store') := transform_in callback ctx store in
      let (outs, store'') := session_in callback calls' store' in
      (out :: outs, store'')
  end.

(** ** The debugging utility, [utils/debugGradient.ts]

    The utility reads a rendered document.  The document object model is
    not part of the repository: elements and documents are opaque here, and
    what the code asks of them (tag name, text content, style attribute,
    computed style, lower-casing of a string) is a parameter. *)

(** [===] on strings. *)
Fixpoint str_eqb (s t : jsstring) : bool :=
  match s, t with
  | [], [] => true
  | c :: s', d :: t' => (c =? d) && str_eqb s' t'
  | _, _ => false
  end.

(** [===] on [string | null]. *)
Definition opt_str_eqb (s t : option jsstring) : bool :=
  match s, t with
  | None, None => true
  | Some s', Some t' => str_eqb s' t'
  | _, _ => false
  end.

(** [String.prototype.trim]: white space and line terminators removed at
    both ends. *)
Fixpoint trim_start (s : jsstring) : jsstring :=
  match s with
  | [] => []
  | c :: s' => if is_space c then trim_start s' else s
  end.

Definition trim (s : jsstring) : jsstring :=
  rev (trim_start (rev (trim_start s))).

(** [s || d] on strings: the empty string is falsy. *)
Definition or_default (s d : jsstring) : jsstring :=
  match s with
  | [] => d
  | _ :: _ => s
  end.

Module DebugGradient.

(** The fields read from [window.getComputedStyle(el)]; a property without
    value reads as the empty string. *)
Record ComputedStyle := {
  cs_color : jsstring;
  cs_webkitTextFillColor : jsstring;
  cs_backgroundImage : jsstring;
  cs_backgroundClip : jsstring;
  cs_webkitBackgroundClip : jsstring;
  cs_display : jsstring;
  cs_visibility : jsstring;
  cs_opacity : jsstring
}.

(** [GradientDebugInfo.computedStyles] *)
Record Styles := {
  color : jsstring;
  webkitTextFillColor : jsstring;
  backgroundImage : jsstring;
  backgroundClip : jsstring;
  webkitBackgroundClip : jsstring;
  display : jsstring;
  visibility : jsstring;
  opacity : jsstring
}.

Section Dom.

Variable Element : Type.
Variable tagNameOf : Element -> jsstring.
Variable textContentOf : Element -> option jsstring.
Variable styleAttrOf : Element -> option jsstring.
Variable getComputedStyle : Element -> ComputedStyle.
Variable toLowerCase : jsstring -> jsstring.

Record GradientDebugInfo := {
  element : Element;
  tagName : jsstring;
  computedStyles : Styles;
  inlineStyles : option jsstring;
  hasText : bool;
  textContent : jsstring
}.

(** The tags kept even without text. *)
Definition always_listed : list jsstring :=
  [js "p"; js "h1"; js "h2"; js "h3"; js "h4"; js "h5"; js "h6"; js "li";
   js "dd"; js "dt"; js "blockquote"].

(** [array.includes(s)] on strings. *)
Definition includes (l : list jsstring) (s : jsstring) : bool :=
  existsb (str_eqb s) l.

(** The body of [textElements.forEach] in [inspectGradientStyles]: what one
    element adds to [results]. *)
Definition inspect_element (el : Element) : list GradientDebugInfo :=
  let computed := getComputedStyle el in
  let hasText :=
    match textContentOf el with
    | Some t => (0 <? List.length (trim t))%nat
    | None => false
    end in
  if hasText || includes always_listed (toLowerCase (tagNameOf el)) then
    [{| element := el;
        tagName := toLowerCase (tagNameOf el);
        computedStyles :=
          {| color := cs_color computed;
             webkitTextFillColor :=
               or_default (cs_webkitTextFillColor computed) (js "not set");
             backgroundImage := cs_backgroundImage computed;
             backgroundClip := cs_backgroundClip computed;
             webkitBackgroundClip :=
               or_default (cs_webkitBackgroundClip computed) (js "not set");
             display := cs_display computed;
             visibility := cs_visibility computed;
             opacity := cs_opacity computed |};
        inlineStyles := styleAttrOf el;
        hasText := hasText;
        textContent :=
          match textContentOf el with
          | Some t => or_default (firstn 50 t) []
          | None => []
          end |}]
  else [].

(** [inspectGradientStyles], from the elements that
    [doc.querySelectorAll] returns, in document order. *)
Definition inspectGradientStyles (textElements : list Element)
    : list GradientDebugInfo :=
  flat_map inspect_element textElements.

(** [null] in a template literal. *)
Definition show_inline (s : option jsstring) : jsstring :=
  match s with
  | Some t => t
  | None => js "null"
  end.

(** One line of [diffs]: [label: working="w" vs broken="b"]. *)
Definition diff_line (label w b : jsstring) : jsstring :=
  label ++ js ": working=" ++ quoted w ++ js " vs broken=" ++ quoted b.

(** [if (w !== b) diffs.push(...)] *)
Definition push_if_differ (label w b : jsstring) : list jsstring :=
  if str_eqb w b then [] else [diff_line label w b].

(** The [diffs] of a working element [w] and its partner [b]. *)
Definition style_diffs (w b : GradientDebugInfo) : list jsstring :=
  let wStyles := computedStyles w in
  let bStyles := computedStyles b in
  push_if_differ (js "color") (color wStyles) (color bStyles)
  ++ push_if_differ (js "webkitTextFillColor")
       (webkitTextFillColor wStyles) (webkitTextFillColor bStyles)
  ++ push_if_differ (js "backgroundImage")
       (backgroundImage wStyles) (backgroundImage bStyles)
  ++ push_if_differ (js "backgroundClip")
       (backgroundClip wStyles) (backgroundClip bStyles)
  ++ push_if_differ (js "webkitBackgroundClip")
       (webkitBackgroundClip wStyles) (webkitBackgroundClip bStyles)
  ++ (if opt_str_eqb (inlineStyles w) (inlineStyles b) then []
      else [diff_line (js "inline styles")
              (show_inline (inlineStyles w)) (show_inline (inlineStyles b))]).

(** An entry of [differences]. *)
Record Difference := {
  diff_tagName : jsstring;
  diff_working : GradientDebugInfo;
  diff_broken : GradientDebugInfo;
  diff_differences : list jsstring
}.

(** The test of [broken.find]: same tag, same first 30 code units of
    text. *)
Definition same_element (w b : GradientDebugInfo) : bool :=
  str_eqb (tagName b) (tagName w)
  && str_eqb (firstn 30 (textContent b)) (firstn 30 (textContent w)).

(** The body of [working.forEach] in [compareGradientStyles]: what one
    working element adds to [differences]. *)
Definition compare_element (broken : list GradientDebugInfo)
    (w : GradientDebugInfo) : list Difference :=
  match find (same_element w) broken with
  | Some matching =>
      let diffs := style_diffs w matching in
      if (0 <? List.length diffs)%nat then
        [{| diff_tagName := tagName w;
            diff_working := w;
            diff_broken := matching;
            diff_differences := diffs |}]
      else []
  | None => []
  end.

Record Comparison := {
  working : list GradientDebugInfo;
  broken : list GradientDebugInfo;
  differences : list Difference
}.

(** [compareGradientStyles], from the elements of the two documents. *)
Definition compareGradientStyles (workingDoc brokenDoc : list Element)
    : Comparison :=
  let working := inspectGradientStyles workingDoc in
  let broken := inspectGradientStyles brokenDoc in
  {| working := working;
     broken := broken;
     differences := flat_map (compare_element broken) working |}.

(** What identifies an element for [compareGradientStyles]. *)
Definition key (x : GradientDebugInfo) : jsstring * jsstring :=
  (tagName x, firstn 30 (textContent x)).

End Dom.

Section Docs.

(** [getCurrentDocs] and [getCurrentDoc]: the documents of the open book.
    A [foliate-view] element has a renderer or not; the renderer returns
    contents or nothing; a content has a document or not; an [iframe] has a
    content document or not. *)

Variable Document : Type.
Variable same_doc : Document -> Document -> bool.

(** [foliateViews.forEach]: the documents of one view. *)
Definition view_docs (renderer : option (option (list (option Document))))
    : list Document :=
  match renderer with
  | None => []
  | Some None => []
  | Some (Some contents) =>
      flat_map (fun c => match c with Some d => [d] | None => [] end)
        contents
  end.

(** [iframes.forEach]: a content document not yet in [docs] is pushed. *)
Fixpoint add_iframes (docs : list Document)
    (iframes : list (option Document)) : list Document :=
  match iframes with
  | [] => docs
  | None :: rest => add_iframes docs rest
  | Some d :: rest =>
      if existsb (same_doc d) docs then add_iframes docs rest
      else add_iframes (docs ++ [d]) rest
  end.

Definition getCurrentDocs
    (foliateViews : list (option (option (list (option Document)))))
    (iframes : list (option Document)) : list Document :=
  add_iframes (flat_map view_docs foliateViews) iframes.

Definition getCurrentDoc
    (foliateViews : list (option (option (list (option Document)))))
    (iframes : list (option Document)) : option Document :=
  match getCurrentDocs foliateViews iframes with
  | d :: _ => Some d
  | [] => None
  end.

End Docs.

Arguments element {Element} g.
Arguments tagName {Element} g.
Arguments computedStyles {Element} g.
Arguments inlineStyles {Element} g.
Arguments hasText {Element} g.
Arguments textContent {Element} g.
Arguments inspect_element {Element}.
Arguments inspectGradientStyles {Element}.
Arguments style_diffs {Element}.
Arguments same_element {Element}.
Arguments compare_element {Element}.
Arguments compareGradientStyles {Element}.
Arguments diff_tagName {Element} d.
Arguments diff_working {Element} d.
Arguments diff_broken {Element} d.
Arguments diff_differences {Element} d.
Arguments working {Element} c.
Arguments broken {Element} c.
Arguments differences {Element} c.
Arguments key {Element}.
Arguments view_docs {Document}.
Arguments add_iframes {Document}.
Arguments getCurrentDocs {Document}.
Arguments getCurrentDoc {Document}.

End DebugGradient.

(** A small document to try the utility on: an element is its tag name, its
    text and its colour; nothing else is set. *)
Module DebugFixture.

Definition Element : Type := jsstring * jsstring * jsstring.

Definition tagNameOf (e : Element) : jsstring := fst (fst e).
Definition textContentOf (e : Element) : option jsstring :=
  Some (snd (fst e)).
Definition styleAttrOf (e : Element) : option jsstring := None.
Definition getComputedStyle (e : Element) : DebugGradient.ComputedStyle :=
  {| DebugGradient.cs_color := snd e;
     DebugGradient.cs_webkitTextFillColor := [];
     DebugGradient.cs_backgroundImage := js "none";
     DebugGradient.cs_backgroundClip := js "border-box";
     DebugGradient.cs_webkitBackgroundClip := [];
     DebugGradient.cs_display := js "block";
     DebugGradient.cs_visibility := js "visible";
     DebugGradient.cs_opacity := js "1" |}.

(** Lower case, for ASCII tag names. *)
Definition toLowerCase (s : jsstring) : jsstring :=
  map (fun c => if (65 <=? c) && (c <=? 90) then c + 32 else c) s.

Definition inspect :=
  DebugGradient.inspectGradientStyles tagNameOf textContentOf styleAttrOf
    getComputedStyle toLowerCase.

Definition compare :=
  DebugGradient.compareGradientStyles tagNameOf textContentOf styleAttrOf
    getComputedStyle toLowerCase.

Definition workingDoc : list Element :=
  [(js "P", js "Hello", js "transparent");
   (js "SPAN", js "  ", js "black");
   (js "DIV", js "World", js "transparent")].

Definition brokenDoc : list Element :=
  [(js "P", js "Hello", js "black");
   (js "DIV", js "World", js "transparent")].

(** The entry of the first element of [workingDoc]. *)
Definition helloInfo : DebugGradient.GradientDebugInfo Element :=
  {| DebugGradient.element := (js "P", js "Hello", js "transparent");
     DebugGradient.tagName := js "p";
     DebugGradient.computedStyles :=
       {| DebugGradient.color := js "transparent";
          DebugGradient.webkitTextFillColor := js "not set";
          DebugGradient.backgroundImage := js "none";
          DebugGradient.backgroundClip := js "border-box";
          DebugGradient.webkitBackgroundClip := js "not set";
          DebugGradient.display := js "block";
          DebugGradient.visibility := js "visible";
          DebugGradient.opacity := js "1" |};
     DebugGradient.inlineStyles := None;
     DebugGradient.hasText := true;
     DebugGradient.textContent := js "Hello" |}.

(** The same paragraph in [brokenDoc]: black, and not displayed. *)
Definition brokenHelloInfo : DebugGradient.GradientDebugInfo Element :=
  {| DebugGradient.element := (js "P", js "Hello", js "black");
     DebugGradient.tagName := js "p";
     DebugGradient.computedStyles :=
       {| DebugGradient.color := js "black";
          DebugGradient.webkitTextFillColor := js "not set";
          DebugGradient.backgroundImage := js "none";
          DebugGradient.backgroundClip := js "border-box";
          DebugGradient.webkitBackgroundClip := js "not set";
          DebugGradient.display := js "block";
          DebugGradient.visibility := js "visible";
          DebugGradient.opacity := js "1" |};
     DebugGradient.inlineStyles := None;
     DebugGradient.hasText := true;
     DebugGradient.textContent := js "Hello" |}.

(** The one difference of the two documents. *)
Definition helloDifference : DebugGradient.Difference Element :=
  {| DebugGradient.diff_tagName := js "p";
     DebugGradient.diff_working := helloInfo;
     DebugGradient.diff_broken := brokenHelloInfo;
     DebugGradient.diff_differences :=
       [js "color: working=" ++ quoted (js "transparent")
        ++ js " vs broken=" ++ quoted (js "black")] |}.

(** [helloInfo] with another [display] and [opacity]. *)
Definition hiddenHelloInfo : DebugGradient.GradientDebugInfo Element :=
  {| DebugGradient.element := (js "P", js "Hello", js "transparent");
     DebugGradient.tagName := js "p";
     DebugGradient.computedStyles :=
       {| DebugGradient.color := js "transparent";
          DebugGradient.webkitTextFillColor := js "not set";
          DebugGradient.backgroundImage := js "none";
          DebugGradient.backgroundClip := js "border-box";
          DebugGradient.webkitBackgroundClip := js "not set";
          DebugGradient.display := js "none";
          DebugGradient.visibility := js "visible";
          DebugGradient.opacity := js "0" |};
     DebugGradient.inlineStyles := None;
     DebugGradient.hasText := true;
     DebugGradient.textContent := js "Hello" |}.

End DebugFixture.

(** ** Notions used in the properties *)

(** The letter of the tag name, [p] or [P]. *)
Definition is_p (c : code_unit) : bool := eq_ci 112 c.

(** The texts [<p] and [</p>] with the tag letter [p], resp. [q]. *)
Definition open_tag (p : code_unit) : jsstring := [60; p].
Definition close_tag (q : code_unit) : jsstring := [60; 47; q; 62].

(** A closing tag somewhere in [s]. *)
Definition has_close (s : jsstring) : bool :=
  match split_close s with Some _ => true | None => false end.

(** No [>] in [a]. *)
Definition no_gt (a : jsstring) : Prop := existsb is_gt a = false.

(** The match with opening tag letter [p], groups [a] and [i], closing tag
    letter [q]. *)
Definition block (p : code_unit) (a i : jsstring) (q : code_unit) : pmatch :=
  {| whole := open_tag p ++ a ++ js ">" ++ i ++ close_tag q;
     attrs := a; inner := i |}.

(** What makes [m] a match: its text is an opening tag with group 1 free of
    [>], then group 2 free of closing tags, then a closing tag. *)
Definition well_formed (m : pmatch) : Prop :=
  exists p q, is_p p = true /\ is_p q = true /\
              m = block p (attrs m) (inner m) q /\
              no_gt (attrs m) /\ has_close (inner m) = false.

(** The text a segment stands for in the scanned string. *)
Definition text (g : segment) : jsstring :=
  match g with
  | Lit c => [c]
  | Blk m => whole m
  end.

(** The matches of a string, in the order of the scan. *)
Fixpoint matches_of (segs : list segment) : list pmatch :=
  match segs with
  | [] => []
  | Lit _ :: segs' => matches_of segs'
  | Blk m :: segs' => m :: matches_of segs'
  end.

(** The matches the scan finds in [s]. *)
Definition blocks (s : jsstring) : list pmatch := matches_of (scan s).

(** After an opening tag, what the rest of the pattern needs: a [>] and a
    closing tag after it. *)
Definition tail_matchable (t : jsstring) : bool :=
  match split_at is_gt t with
  | Some (_, t2) => has_close t2
  | None => false
  end.

(** Both callbacks return [<p], new attribute text [fa n a], [>], new inner
    text [fi n i] and [</p>], and add one to the counter. *)
Definition shaped (fa fi : nat -> jsstring -> jsstring)
    (n : nat) (a i : jsstring) : jsstring * nat :=
  (js "<p" ++ fa n a ++ js ">" ++ fi n i ++ js "</p>", S n).

(** The match of the output that comes from the match [m] of the input,
    the [n]-th one. *)
Definition rebuilt (fa fi : nat -> jsstring -> jsstring)
    (n : nat) (m : pmatch) : pmatch :=
  block 112 (fa n (attrs m)) (fi n (inner m)) 112.

(** The segments of the output, from those of the input: the code units
    between the matches stay, the matches are rebuilt, the first one with the
    number [n]. *)
Fixpoint relabel (fa fi : nat -> jsstring -> jsstring)
    (n : nat) (segs : list segment) : list segment :=
  match segs with
  | [] => []
  | Lit c :: segs' => Lit c :: relabel fa fi n segs'
  | Blk m :: segs' => Blk (rebuilt fa fi n m) :: relabel fa fi (S n) segs'
  end.

(** [kw] is the word [class=] in some mix of cases. *)
Definition class_keyword (kw : jsstring) : Prop :=
  Forall2 (fun p c => eq_ci p c = true) (js "class=") kw.

(** The text the wrapper revision puts around the paragraph body. *)
Definition wrap (n : nat) (i : jsstring) : jsstring :=
  js "<span class="
  ++ quoted (js "g-clip " ++ js "g-l" ++ number_to_string (n mod 4)%nat)
  ++ js ">" ++ i ++ js "</span>".

(** The attribute text and the body that the callback of the classes-only
    revision returns for the [n]-th match. *)
Definition classes_attrs (n : nat) (a : jsstring) : jsstring :=
  add_class (js "g-line g-l" ++ number_to_string (n mod 4)%nat) a.

Definition classes_inner (n : nat) (i : jsstring) : jsstring := i.

(** The same for the wrapper revision. *)
Definition wrapper_attrs (n : nat) (a : jsstring) : jsstring :=
  add_class (js "g-line") a.

Definition wrapper_inner (n : nat) (i : jsstring) : jsstring :=
  if hasClip i then i else wrap n i.

(** Five paragraphs in a row. *)
Definition five_paragraphs : jsstring :=
  js "<p>a</p><p>b</p><p>c</p><p>d</p><p>e</p>".

(** ** The texts the patterns look for, in plain terms

    The properties below are stated with these descriptions of texts, and
    not with the matching functions of the first part. *)

(** The tag letter: [p] or [P]. *)
Definition tag_letter (p : code_unit) : Prop := p = 112 \/ p = 80.

(** The body has no closing paragraph tag in it. *)
Definition no_close_tag (i : jsstring) : Prop :=
  forall x q y, tag_letter q -> i <> x ++ close_tag q ++ y.

(** The text of [m] is a paragraph as the pattern reads one: [<p] or [<P],
    a tag text [attrs m] without [>], a [>], a body [inner m] without
    closing paragraph tag, and [</p>] or [</P>]. *)
Definition paragraph_text (m : pmatch) : Prop :=
  exists p q,
    tag_letter p /\ tag_letter q
    /\ whole m = open_tag p ++ attrs m ++ js ">" ++ inner m ++ close_tag q
    /\ ~ In 62 (attrs m)
    /\ no_close_tag (inner m).

(** What a segment shows of the text outside the matches. *)
Definition outside (g : segment) : option code_unit :=
  match g with
  | Lit c => Some c
  | Blk _ => None
  end.

(** The body carries the clip marker: somewhere in it stands [<span], white
    space, [class=], a quote of either kind, and up to the next quote of
    either kind a text with [g-clip] in it, between two code units that are
    not word characters (the quotes count as such). *)
Definition carries_clip_marker (body : jsstring) : Prop :=
  exists pre ws q1 r1 r2 q2 post,
    body = pre ++ js "<span" ++ ws ++ js "class=" ++ q1 :: r1
           ++ js "g-clip" ++ r2 ++ q2 :: post
    /\ ws <> [] /\ forallb is_space ws = true
    /\ is_quote q1 = true /\ is_quote q2 = true
    /\ existsb is_quote r1 = false /\ existsb is_quote r2 = false
    /\ is_word (last r1 q1) = false /\ is_word (hd q2 r2) = false.

(** [w] is the word [class] in some mix of cases. *)
Definition class_word (w : jsstring) : Prop :=
  Forall2 (fun p c => eq_ci p c = true) (js "class") w.

(** No text [class=], in any mix of cases, with a value between double
    quotes starts in [a] to the left of the end of [before]. *)
Definition leftmost (before a : jsstring) : Prop :=
  forall x kw classes y,
    class_keyword kw -> existsb is_dq classes = false ->
    a = x ++ kw ++ quoted classes ++ y ->
    (List.length before <= List.length x)%nat.

(** [a'] is the tag text [a] with the tokens [extra] merged in: after the
    value of the leftmost text [class=] with a value between double quotes,
    the keyword in lower case; or, when [a] has no such text, in a class
    attribute of their own at the end. *)
Definition merged (extra a a' : jsstring) : Prop :=
  (exists before kw classes after,
      class_keyword kw /\ existsb is_dq classes = false
      /\ a = before ++ kw ++ quoted classes ++ after
      /\ leftmost before a
      /\ a' = before ++ js "class=" ++ quoted (classes ++ js " " ++ extra)
              ++ after)
  \/ ((forall x kw classes y,
          class_keyword kw -> existsb is_dq classes = false ->
          a <> x ++ kw ++ quoted classes ++ y)
      /\ a' = a ++ js " class=" ++ quoted extra).

(** Reading a tag text from the left: inside a quoted attribute value, and
    then which quote opened it, or outside. *)
Fixpoint quote_state (st : option code_unit) (s : jsstring)
    : option code_unit :=
  match s with
  | [] => st
  | c :: s' =>
      match st with
      | None => quote_state (if is_quote c then Some c else None) s'
      | Some q => quote_state (if c =? q then None else Some q) s'
      end
  end.

(** After [s], the tag text is outside every quoted value. *)
Definition outside_values (s : jsstring) : Prop :=
  quote_state None s = None.

(** * Properties *)

(** ** Characters and literals *)

Arguments eq_ci : simpl never.

Ltac case_leb :=
  repeat match goal with
         | |- context [?a <=? ?b] => destruct (N.leb_spec a b)
         end; simpl.

Lemma eq_ci_fixed (p c : code_unit) :
  p < 65 \/ (90 < p /\ p < 97) \/ 122 < p ->
  eq_ci p c = true <-> c = p.
Proof.
  intros Hp. unfold eq_ci, canon. case_leb; rewrite N.eqb_eq; lia.
Qed.

Lemma eq_ci_p (c : code_unit) :
  eq_ci 112 c = true <-> c = 112 \/ c = 80.
Proof.
  unfold eq_ci. change (canon 112) with 80. unfold canon.
  destruct (N.leb_spec 97 c), (N.leb_spec c 122); cbn [andb];
    rewrite N.eqb_eq; lia.
Qed.

Lemma is_gt_spec (c : code_unit) : is_gt c = true <-> c = 62.
Proof. apply N.eqb_eq. Qed.

Lemma is_dq_spec (c : code_unit) : is_dq c = true <-> c = dq.
Proof. apply N.eqb_eq. Qed.

(** The decimal text of a shade index is one digit. *)
Lemma shade_digit (n : nat) :
  number_to_string (n mod 4)%nat = [48 + N.of_nat (n mod 4)].
Proof.
  assert (H : (n mod 4 < 4)%nat) by (apply Nat.mod_upper_bound; lia).
  destruct (n mod 4)%nat as [|[|[|[|k]]]]; try reflexivity; lia.
Qed.

(** ** Matching a literal *)

Lemma strip_sound eqc pat s m r :
  strip eqc pat s = Some (m, r) ->
  s = m ++ r /\ Forall2 (fun p c => eqc p c = true) pat m.
Proof.
  revert s m r. induction pat as [|p pat IH]; intros s m r H; simpl in H.
  - inversion H; subst. split; [reflexivity | constructor].
  - destruct s as [|c s']; [discriminate|].
    destruct (eqc p c) eqn:E; [|discriminate].
    destruct (strip eqc pat s') as [[m' r']|] eqn:E'; [|discriminate].
    inversion H; subst. apply IH in E' as [-> HF].
    split; [reflexivity | constructor; assumption].
Qed.

Lemma strip_complete eqc pat m r :
  Forall2 (fun p c => eqc p c = true) pat m ->
  strip eqc pat (m ++ r) = Some (m, r).
Proof.
  induction 1 as [|p c pat m Hpc _ IH]; simpl; [reflexivity|].
  now rewrite Hpc, IH.
Qed.

(** ** A run closed by a stop character *)

Lemma split_at_sound stop s a r :
  split_at stop s = Some (a, r) ->
  exists c, stop c = true /\ s = a ++ c :: r /\ existsb stop a = false.
Proof.
  revert a r. induction s as [|c s IH]; intros a r H; simpl in H;
    [discriminate|].
  destruct (stop c) eqn:E.
  - inversion H; subst. exists c. repeat split; assumption.
  - destruct (split_at stop s) as [[a' r']|]; [|discriminate].
    inversion H; subst. destruct (IH a' r eq_refl) as (c' & Hc & -> & Ha).
    exists c'. simpl. rewrite E. repeat split; assumption.
Qed.

Lemma split_at_complete stop a c r :
  existsb stop a = false -> stop c = true ->
  split_at stop (a ++ c :: r) = Some (a, r).
Proof.
  intros Ha Hc. induction a as [|x a IH]; simpl in *.
  - now rewrite Hc.
  - apply orb_false_iff in Ha as [Hx Ha]. now rewrite Hx, IH.
Qed.

Lemma split_at_none stop s :
  split_at stop s = None <-> existsb stop s = false.
Proof.
  induction s as [|c s IH]; simpl; [tauto|].
  destruct (stop c); simpl.
  - split; discriminate.
  - destruct (split_at stop s) as [[a r]|].
    + split; [discriminate|]. intros H. apply IH in H. discriminate.
    + tauto.
Qed.

(** ** The opening and the closing tag *)

Ltac norm_app :=
  repeat (progress (rewrite <- ?app_assoc; cbn [app])).

Ltac inv_Forall2 :=
  repeat match goal with
         | H : Forall2 _ (_ :: _) _ |- _ => inversion H; subst; clear H
         | H : Forall2 _ [] _ |- _ => inversion H; subst; clear H
         end.

Ltac fixed_chars :=
  repeat match goal with
         | H : eq_ci ?p _ = true |- _ =>
             lazymatch p with
             | 112 => fail
             | _ => apply eq_ci_fixed in H; [subst | unfold dq; lia]
             end
         end.

Lemma strip_open_iff s op t :
  strip eq_ci (js "<p") s = Some (op, t) <->
  exists p, is_p p = true /\ op = open_tag p /\ s = open_tag p ++ t.
Proof.
  change (js "<p") with [60; 112]. split.
  - intros H. apply strip_sound in H as [-> HF]. inv_Forall2. fixed_chars.
    eexists; repeat split; eassumption.
  - intros (p & Hp & -> & ->). apply strip_complete.
    repeat constructor; exact Hp.
Qed.

Lemma starts_close_iff s cl r :
  starts_close s = Some (cl, r) <->
  exists q, is_p q = true /\ cl = close_tag q /\ s = close_tag q ++ r.
Proof.
  unfold starts_close. change (js "</p>") with [60; 47; 112; 62]. split.
  - intros H. apply strip_sound in H as [-> HF]. inv_Forall2. fixed_chars.
    eexists; repeat split; eassumption.
  - intros (q & Hq & -> & ->). apply strip_complete.
    repeat constructor; exact Hq.
Qed.

(** The closing tag reads four code units: text that follows a shorter
    string and starts with [<] cannot complete one. *)
Lemma starts_close_app_lt x t :
  x <> [] -> starts_close x = None -> starts_close (x ++ 60 :: t) = None.
Proof.
  intros Hx H.
  destruct (starts_close (x ++ 60 :: t)) as [[cl r]|] eqn:E; [|reflexivity].
  apply starts_close_iff in E as (q & Hq & -> & E).
  destruct x as [|a [|b [|c [|d x]]]]; [congruence| | | |];
    unfold close_tag in E; simpl in E; inversion E; subst.
  - apply eq_ci_p in Hq. lia.
  - assert (H' : starts_close (close_tag q ++ x) = Some (close_tag q, x))
      by (apply starts_close_iff; eauto).
    unfold close_tag in H'. simpl in H'. congruence.
Qed.

Lemma has_close_cons c s :
  has_close (c :: s) = false <->
  starts_close (c :: s) = None /\ has_close s = false.
Proof.
  unfold has_close. cbn [split_close].
  destruct (starts_close (c :: s)) as [[cl r]|];
    [|destruct (split_close s) as [[[i cl] r]|]];
    split; intuition discriminate.
Qed.

Lemma has_close_nil : has_close [] = false.
Proof. reflexivity. Qed.

Lemma split_close_sound s i cl r :
  split_close s = Some (i, cl, r) ->
  exists q, is_p q = true /\ cl = close_tag q /\ s = i ++ cl ++ r
            /\ has_close i = false.
Proof.
  revert i cl r. induction s as [|c s IH]; intros i cl r H.
  - cbn in H. discriminate.
  - cbn [split_close] in H.
    destruct (starts_close (c :: s)) as [[cl' r']|] eqn:E.
    + inversion H; subst.
      apply starts_close_iff in E as (q & Hq & -> & E).
      exists q. repeat split; assumption.
    + destruct (split_close s) as [[[i' cl'] r']|] eqn:E'; [|discriminate].
      inversion H; subst.
      destruct (IH _ _ _ eq_refl) as (q & Hq & -> & -> & Hi).
      exists q. repeat split; try assumption.
      apply has_close_cons. split; [|assumption].
      destruct (starts_close (c :: i')) as [[cl2 r2]|] eqn:E2;
        [|reflexivity].
      apply starts_close_iff in E2 as (q2 & Hq2 & -> & E2).
      assert (H' : starts_close
                     (close_tag q2 ++ r2 ++ close_tag q ++ r)
                   = Some (close_tag q2, r2 ++ close_tag q ++ r))
        by (apply starts_close_iff; eauto).
      change (c :: i' ++ close_tag q ++ r)
        with ((c :: i') ++ close_tag q ++ r) in E.
      rewrite E2, <- app_assoc in E. congruence.
Qed.

Lemma split_close_complete i q r :
  has_close i = false -> is_p q = true ->
  split_close (i ++ close_tag q ++ r) = Some (i, close_tag q, r).
Proof.
  intros Hi Hq. induction i as [|c i IH].
  - cbn [app split_close].
    assert (H : starts_close (close_tag q ++ r) = Some (close_tag q, r))
      by (apply starts_close_iff; eauto).
    destruct (close_tag q ++ r) eqn:E; [discriminate|].
    cbn [split_close]. now rewrite H.
  - apply has_close_cons in Hi as [Hc Hi].
    change ((c :: i) ++ close_tag q ++ r)
      with (c :: (i ++ close_tag q ++ r)).
    cbn [split_close].
    change (c :: (i ++ close_tag q ++ r))
      with ((c :: i) ++ 60 :: 47 :: q :: 62 :: r).
    rewrite starts_close_app_lt by (assumption || discriminate).
    change ((c :: i) ++ 60 :: 47 :: q :: 62 :: r)
      with (c :: (i ++ close_tag q ++ r)).
    now rewrite IH.
Qed.

(** ** One match of the paragraph pattern *)

Lemma match_p_sound s m r :
  match_p s = Some (m, r) -> s = whole m ++ r /\ well_formed m.
Proof.
  unfold match_p. intros H.
  destruct (strip eq_ci (js "<p") s) as [[op t]|] eqn:E1; [|discriminate].
  destruct (split_at is_gt t) as [[a t2]|] eqn:E2; [|discriminate].
  destruct (split_close t2) as [[[i cl] rest]|] eqn:E3; [|discriminate].
  inversion H; subst; clear H.
  apply strip_open_iff in E1 as (p & Hp & -> & ->).
  apply split_at_sound in E2 as (c & Hc & -> & Ha).
  apply is_gt_spec in Hc as ->.
  apply split_close_sound in E3 as (q & Hq & -> & -> & Hi).
  split.
  - cbn [whole]. change (js ">") with [62]. now norm_app.
  - exists p, q. repeat split; assumption.
Qed.

Lemma match_p_complete p a i q r :
  is_p p = true -> is_p q = true -> no_gt a -> has_close i = false ->
  match_p (whole (block p a i q) ++ r) = Some (block p a i q, r).
Proof.
  intros Hp Hq Ha Hi. unfold match_p. cbn [whole block].
  rewrite <- app_assoc.
  assert (E1 : strip eq_ci (js "<p")
                 (open_tag p ++ (a ++ js ">" ++ i ++ close_tag q) ++ r)
               = Some (open_tag p, (a ++ js ">" ++ i ++ close_tag q) ++ r))
    by (apply strip_open_iff; eauto).
  rewrite E1. change (js ">") with [62].
  rewrite <- !app_assoc. cbn [app].
  rewrite (split_at_complete is_gt a 62) by (assumption || reflexivity).
  now rewrite split_close_complete.
Qed.

Lemma whole_length m : well_formed m -> (7 <= List.length (whole m))%nat.
Proof.
  intros (p & q & _ & _ & -> & _). cbn [whole block].
  rewrite !length_app. cbn. lia.
Qed.

(** ** The scan *)

Lemma scan_fuel_irrel f1 f2 s :
  (List.length s <= f1)%nat -> (List.length s <= f2)%nat ->
  scan_fuel f1 s = scan_fuel f2 s.
Proof.
  revert f2 s. induction f1 as [|f1 IH]; intros f2 s H1 H2.
  - destruct s; [|cbn in H1; lia]. now destruct f2.
  - destruct f2 as [|f2].
    + destruct s; [reflexivity | cbn in H2; lia].
    + destruct s as [|c s]; [reflexivity|]. cbn [scan_fuel].
      destruct (match_p (c :: s)) as [[m r]|] eqn:E.
      * apply match_p_sound in E as [E Hm].
        apply whole_length in Hm.
        apply (f_equal (@List.length _)) in E. rewrite length_app in E.
        f_equal. apply IH; lia.
      * f_equal. cbn in H1, H2. apply IH; lia.
Qed.

Lemma scan_nil : scan [] = [].
Proof. reflexivity. Qed.

(** The scan, one step at a time. *)
Lemma scan_cons c s :
  scan (c :: s) =
  match match_p (c :: s) with
  | Some (m, rest) => Blk m :: scan rest
  | None => Lit c :: scan s
  end.
Proof.
  unfold scan. cbn [List.length scan_fuel].
  destruct (match_p (c :: s)) as [[m r]|] eqn:E; f_equal.
  - apply match_p_sound in E as [E Hm]. apply whole_length in Hm.
    apply (f_equal (@List.length _)) in E. rewrite length_app in E.
    cbn in E. apply scan_fuel_irrel; lia.
Qed.

Lemma scan_match s m r :
  match_p s = Some (m, r) -> scan s = Blk m :: scan r.
Proof.
  intros H. destruct s as [|c s]; [discriminate|].
  now rewrite scan_cons, H.
Qed.

Lemma scan_skip c s :
  match_p (c :: s) = None -> scan (c :: s) = Lit c :: scan s.
Proof. intros H. now rewrite scan_cons, H. Qed.

(** Induction along the scan. *)
Lemma scan_ind (P : jsstring -> Prop) :
  P [] ->
  (forall c s, match_p (c :: s) = None -> P s -> P (c :: s)) ->
  (forall s m r, match_p s = Some (m, r) -> P r -> P s) ->
  forall s, P s.
Proof.
  intros Hnil Hskip Hmatch s.
  remember (List.length s) as n eqn:Hn. revert s Hn.
  induction n as [n IH] using lt_wf_ind. intros s ->.
  destruct s as [|c s]; [exact Hnil|].
  destruct (match_p (c :: s)) as [[m r]|] eqn:E.
  - apply (Hmatch _ _ _ E). pose proof E as E'.
    apply match_p_sound in E' as [E' Hm]. apply whole_length in Hm.
    apply (f_equal (@List.length _)) in E'. rewrite length_app in E'.
    apply (IH (List.length r)); [lia | reflexivity].
  - apply (Hskip _ _ E). apply (IH (List.length s)); [cbn; lia | reflexivity].
Qed.

(** The segments are the scanned string, cut in pieces: matches do not
    overlap and come in the order of the text. *)
Lemma scan_text s : flat_map text (scan s) = s.
Proof.
  induction s as [|c s Hc IH|s m r Hm IH] using scan_ind.
  - reflexivity.
  - rewrite scan_skip by assumption. cbn. now rewrite IH.
  - rewrite (scan_match _ _ _ Hm). cbn [flat_map text]. rewrite IH.
    apply match_p_sound in Hm as [-> _]. reflexivity.
Qed.

Lemma scan_well_formed s m : In (Blk m) (scan s) -> well_formed m.
Proof.
  induction s as [|c s Hc IH|s m' r Hm IH] using scan_ind.
  - intros [].
  - rewrite scan_skip by assumption. intros [H|H]; [discriminate | auto].
  - rewrite (scan_match _ _ _ Hm). intros [H|H]; [|auto].
    inversion H; subst. now apply match_p_sound in Hm.
Qed.

(** ** Replacing, one step at a time *)

Section ReplaceSteps.

Context {St : Type}.
Variable f : St -> jsstring -> jsstring -> jsstring * St.

Lemma replace_p_nil st : replace_p f st [] = ([], st).
Proof. reflexivity. Qed.

Lemma replace_p_skip st c s :
  match_p (c :: s) = None ->
  replace_p f st (c :: s) =
  let (tl, st') := replace_p f st s in (c :: tl, st').
Proof. intros H. unfold replace_p. now rewrite scan_skip. Qed.

Lemma replace_p_match st s m r :
  match_p s = Some (m, r) ->
  replace_p f st s =
  let (out, st') := f st (attrs m) (inner m) in
  let (tl, st'') := replace_p f st' r in
  (out ++ tl, st'').
Proof. intros H. unfold replace_p. now rewrite (scan_match _ _ _ H). Qed.

Lemma render_lits st s : render f st (map Lit s) = (s, st).
Proof. induction s as [|c s IH]; cbn; [reflexivity | now rewrite IH]. Qed.

End ReplaceSteps.

(** ** Strings without a match *)

Lemma has_close_later c s : has_close s = true -> has_close (c :: s) = true.
Proof.
  intros H. destruct (has_close (c :: s)) eqn:E; [reflexivity|].
  apply has_close_cons in E as [_ E]. congruence.
Qed.

Lemma has_close_app_r x s : has_close s = true -> has_close (x ++ s) = true.
Proof.
  intros H. induction x as [|c x IH]; [exact H|].
  now apply has_close_later.
Qed.

Lemma tail_matchable_later c t :
  tail_matchable (c :: t) = false -> tail_matchable t = false.
Proof.
  unfold tail_matchable. cbn [split_at]. intros H.
  destruct (split_at is_gt t) as [[a t2]|] eqn:E; [|reflexivity].
  destruct (is_gt c); [|exact H].
  apply split_at_sound in E as (g & _ & -> & _).
  destruct (has_close t2) eqn:E2; [|reflexivity].
  pose proof (has_close_app_r (a ++ [g]) t2 E2) as H'.
  rewrite <- app_assoc in H'. cbn [app] in H'. congruence.
Qed.

Lemma is_p_not_gt p : is_p p = true -> is_gt p = false.
Proof.
  intros Hp. apply eq_ci_p in Hp. unfold is_gt. apply N.eqb_neq. lia.
Qed.

Lemma tail_matchable_p p t :
  is_p p = true -> tail_matchable (p :: t) = tail_matchable t.
Proof.
  intros Hp. unfold tail_matchable. cbn [split_at].
  rewrite (is_p_not_gt p Hp).
  now destruct (split_at is_gt t) as [[a t2]|].
Qed.

Lemma match_p_matchable s m r :
  match_p s = Some (m, r) -> tail_matchable s = true.
Proof.
  intros H. apply match_p_sound in H as [-> (p & q & Hp & Hq & -> & Ha & Hi)].
  cbn [whole block attrs inner] in *. change (js ">") with [62].
  norm_app. rewrite app_assoc.
  unfold tail_matchable. rewrite split_at_complete.
  - unfold has_close. now rewrite split_close_complete.
  - rewrite existsb_app. unfold open_tag. cbn [existsb].
    rewrite (is_p_not_gt p Hp). exact Ha.
  - reflexivity.
Qed.

Lemma scan_unmatchable s : tail_matchable s = false -> scan s = map Lit s.
Proof.
  induction s as [|c s IH]; intros H; [reflexivity|].
  rewrite scan_skip.
  - cbn [map]. f_equal. apply IH. exact (tail_matchable_later _ _ H).
  - destruct (match_p (c :: s)) as [[m r]|] eqn:E; [|reflexivity].
    apply match_p_matchable in E. congruence.
Qed.

Lemma match_p_open_none p t :
  is_p p = true -> match_p (60 :: p :: t) = None ->
  tail_matchable t = false.
Proof.
  intros Hp H. unfold match_p in H.
  assert (E : strip eq_ci (js "<p") (open_tag p ++ t) = Some (open_tag p, t))
    by (apply strip_open_iff; eauto).
  unfold open_tag in E. cbn [app] in E. rewrite E in H.
  unfold tail_matchable, has_close.
  destruct (split_at is_gt t) as [[a t2]|]; [|reflexivity].
  now destruct (split_close t2) as [[[i cl] r]|].
Qed.

(** ** Callbacks that rebuild the tag

    Both callbacks return [<p], new attribute text, [>], new inner text and
    [</p>], and add one to the counter. *)

Section Shaped.

Variable fa : nat -> jsstring -> jsstring.
Variable fi : nat -> jsstring -> jsstring.

Lemma render_shaped n segs :
  render (shaped fa fi) n segs =
  (flat_map text (relabel fa fi n segs),
   (n + List.length (matches_of segs))%nat).
Proof.
  revert n. induction segs as [|[c|m] segs IH]; intros n.
  - cbn. f_equal. lia.
  - cbn [render relabel flat_map matches_of text]. now rewrite IH.
  - cbn [render relabel flat_map matches_of text]. unfold shaped at 1.
    rewrite IH. cbn [List.length]. f_equal. lia.
Qed.

Lemma matches_relabel n segs :
  matches_of (relabel fa fi n segs) =
  map (fun km => rebuilt fa fi (fst km) (snd km))
      (combine (seq n (List.length (matches_of segs))) (matches_of segs)).
Proof.
  revert n. induction segs as [|[c|m] segs IH]; intros n; cbn;
    [reflexivity | apply IH | now rewrite IH].
Qed.

Hypothesis fa_no_gt : forall n a, no_gt a -> no_gt (fa n a).
Hypothesis fi_no_close :
  forall n i, has_close i = false -> has_close (fi n i) = false.

Lemma replace_head n s :
  hd_error (fst (replace_p (shaped fa fi) n s)) = hd_error s.
Proof.
  destruct s as [|c s]; [reflexivity|].
  destruct (match_p (c :: s)) as [[m r]|] eqn:E.
  - rewrite (replace_p_match _ _ _ _ _ E).
    destruct (shaped fa fi n (attrs m) (inner m)) as [out st'] eqn:Es.
    destruct (replace_p (shaped fa fi) st' r) as [tl st].
    unfold shaped in Es. inversion Es; subst out st'.
    apply match_p_sound in E as [E (p & q & _ & _ & Hm & _)].
    rewrite Hm in E. cbn in E. inversion E; subst. reflexivity.
  - rewrite (replace_p_skip _ _ _ _ E).
    now destruct (replace_p (shaped fa fi) n s) as [tl st].
Qed.

Lemma replace_unmatchable n s :
  tail_matchable s = false -> replace_p (shaped fa fi) n s = (s, n).
Proof.
  intros H. unfold replace_p. rewrite (scan_unmatchable _ H).
  apply render_lits.
Qed.

(** Where the pattern does not match in the input, it does not match in
    the output either. *)
Lemma skip_stable n c s :
  match_p (c :: s) = None ->
  match_p (c :: fst (replace_p (shaped fa fi) n s)) = None.
Proof.
  intros H.
  destruct (match_p (c :: fst (replace_p (shaped fa fi) n s)))
    as [[m r]|] eqn:E; [|reflexivity].
  pose proof (match_p_sound _ _ _ E) as [E' (p & q & Hp & _ & Hm & _)].
  rewrite Hm in E'. cbn in E'. inversion E' as [[Hc Hs]].
  pose proof (replace_head n s) as Hh. rewrite Hs in Hh. cbn in Hh.
  destruct s as [|p' t]; [discriminate|]. cbn in Hh. inversion Hh; subst p'.
  subst c. apply (match_p_open_none p t Hp) in H.
  rewrite replace_unmatchable in E
    by (now rewrite tail_matchable_p). cbn [fst] in E.
  apply match_p_matchable in E. cbn in E.
  unfold tail_matchable in E, H. cbn [split_at] in E.
  change (is_gt 60) with false in E. rewrite (is_p_not_gt p Hp) in E.
  destruct (split_at is_gt t) as [[a t2]|]; congruence.
Qed.

(** The matches of the output are the rebuilt matches of the input, in the
    same order, and the text between them is the same. *)
Theorem scan_replace n s :
  scan (fst (replace_p (shaped fa fi) n s)) = relabel fa fi n (scan s).
Proof.
  revert n. induction s as [|c s Hc IH|s m r Hm IH] using scan_ind; intros n.
  - reflexivity.
  - rewrite (replace_p_skip _ _ _ _ Hc), (scan_skip _ _ Hc).
    specialize (IH n). pose proof (skip_stable n c s Hc) as Hk.
    destruct (replace_p (shaped fa fi) n s) as [tl st]. cbn [fst] in *.
    rewrite (scan_skip _ _ Hk). cbn [relabel]. now rewrite IH.
  - rewrite (replace_p_match _ _ _ _ _ Hm), (scan_match _ _ _ Hm).
    specialize (IH (S n)). unfold shaped at 1.
    destruct (replace_p (shaped fa fi) (S n) r) as [tl st]. cbn [fst] in *.
    cbn [relabel]. rewrite <- IH.
    apply match_p_sound in Hm as [_ (p & q & _ & _ & _ & Ha & Hi)].
    apply scan_match.
    apply (match_p_complete 112 (fa n (attrs m)) (fi n (inner m)) 112 tl);
      auto.
Qed.

End Shaped.

Section RenderExt.

Context {St : Type}.
Variables f g : St -> jsstring -> jsstring -> jsstring * St.
Hypothesis fg : forall st a i, f st a i = g st a i.

Lemma render_ext st segs : render f st segs = render g st segs.
Proof.
  revert st. induction segs as [|[c|m] segs IH]; intros st; cbn.
  - reflexivity.
  - now rewrite IH.
  - rewrite fg. destruct (g st (attrs m) (inner m)) as [out st'].
    now rewrite IH.
Qed.

Lemma replace_p_ext st s : replace_p f st s = replace_p g st s.
Proof. apply render_ext. Qed.

End RenderExt.

(** ** The class pattern *)

Lemma class_at_sound s cl a :
  class_at s = Some (cl, a) ->
  exists kw, class_keyword kw /\ s = kw ++ quoted cl ++ a
             /\ existsb is_dq cl = false.
Proof.
  unfold class_at. intros H.
  destruct (strip eq_ci (js "class=" ++ [dq]) s) as [[m t]|] eqn:E;
    [|discriminate].
  apply strip_sound in E as [-> HF].
  apply Forall2_app_inv_l in HF as (kw & d & Hkw & Hd & ->).
  inv_Forall2. fixed_chars.
  apply split_at_sound in H as (c & Hc & -> & Hcl).
  apply is_dq_spec in Hc as ->.
  exists kw. repeat split; try assumption.
  unfold quoted. now norm_app.
Qed.

Lemma class_at_complete kw cl a :
  class_keyword kw -> existsb is_dq cl = false ->
  class_at (kw ++ quoted cl ++ a) = Some (cl, a).
Proof.
  intros Hkw Hcl. unfold class_at, quoted.
  replace (kw ++ (dq :: cl ++ [dq]) ++ a)
    with ((kw ++ [dq]) ++ cl ++ dq :: a) by now norm_app.
  rewrite strip_complete.
  - now apply split_at_complete.
  - apply Forall2_app; [exact Hkw | now repeat constructor].
Qed.

Lemma class_match_sound s b cl a :
  class_match s = Some (b, cl, a) ->
  exists kw, class_keyword kw /\ s = b ++ kw ++ quoted cl ++ a
             /\ existsb is_dq cl = false.
Proof.
  revert b. induction s as [|c s IH]; intros b H.
  - cbn in H. discriminate.
  - cbn [class_match] in H.
    destruct (class_at (c :: s)) as [[cl' a']|] eqn:E.
    + inversion H; subst. now apply class_at_sound in E.
    + destruct (class_match s) as [[[b' cl'] a']|]; [|discriminate].
      inversion H; subst.
      destruct (IH _ eq_refl) as (kw & Hkw & -> & Hcl).
      exists kw. repeat split; assumption.
Qed.

Lemma class_match_none_cons c s :
  class_match (c :: s) = None <->
  class_at (c :: s) = None /\ class_match s = None.
Proof.
  cbn [class_match].
  destruct (class_at (c :: s)) as [[cl a]|];
    [|destruct (class_match s) as [[[b cl] a]|]];
    split; intuition discriminate.
Qed.

(** The class pattern wants a double quote: text without one has no
    match. *)
Lemma class_match_no_dq s :
  existsb is_dq s = false -> class_match s = None.
Proof.
  intros H. destruct (class_match s) as [[[b cl] a]|] eqn:E; [|reflexivity].
  apply class_match_sound in E as (kw & _ & -> & _).
  unfold quoted in H. rewrite !existsb_app in H. cbn in H.
  rewrite !orb_true_r in H. discriminate.
Qed.

Lemma add_class_no_gt extra a :
  no_gt extra -> no_gt a -> no_gt (add_class extra a).
Proof.
  unfold no_gt, add_class. intros He Ha.
  destruct (class_match a) as [[[b cl] af]|] eqn:E.
  - apply class_match_sound in E as (kw & _ & -> & _).
    unfold quoted in *.
    repeat (rewrite ?existsb_app in *; cbn [existsb] in * ).
    repeat match goal with
           | H : _ || _ = false |- _ => apply orb_false_iff in H as [? ?]
           end.
    repeat match goal with
           | H : existsb is_gt _ = false |- _ => rewrite H
           end. reflexivity.
  - unfold quoted.
    repeat (rewrite ?existsb_app; cbn [existsb]).
    now rewrite Ha, He.
Qed.

(** ** The wrapper span *)

Lemma shade_digit_cases (n : nat) :
  { d | number_to_string (n mod 4)%nat = [d]
        /\ (d = 48 \/ d = 49 \/ d = 50 \/ d = 51) }.
Proof.
  assert (H : (n mod 4 < 4)%nat) by (apply Nat.mod_upper_bound; lia).
  destruct (n mod 4)%nat as [|[|[|[|k]]]].
  - exists 48; auto.
  - exists 49; auto.
  - exists 50; auto.
  - exists 51; cbn; auto 6.
  - exfalso; lia.
Qed.

Lemma has_close_step c s :
  starts_close (c :: s) = None -> has_close (c :: s) = has_close s.
Proof.
  intros H. unfold has_close. cbn [split_close]. rewrite H.
  now destruct (split_close s) as [[[i cl] r]|].
Qed.

Lemma starts_close_head c s : c <> 60 -> starts_close (c :: s) = None.
Proof.
  intros Hc. destruct (starts_close (c :: s)) as [[cl r]|] eqn:E;
    [|reflexivity].
  apply starts_close_iff in E as (q & _ & _ & E). inversion E. congruence.
Qed.

Lemma starts_close_second c s : c <> 47 -> starts_close (60 :: c :: s) = None.
Proof.
  intros Hc. destruct (starts_close (60 :: c :: s)) as [[cl r]|] eqn:E;
    [|reflexivity].
  apply starts_close_iff in E as (q & _ & _ & E). inversion E. congruence.
Qed.

Lemma has_close_skip c s : c <> 60 -> has_close (c :: s) = has_close s.
Proof. intros Hc. apply has_close_step. now apply starts_close_head. Qed.

Lemma has_close_skip_lt c s :
  c <> 47 -> has_close (60 :: c :: s) = has_close (c :: s).
Proof. intros Hc. apply has_close_step. now apply starts_close_second. Qed.

Lemma has_close_app_lt x t :
  has_close x = false -> has_close (x ++ 60 :: t) = has_close (60 :: t).
Proof.
  induction x as [|c x IH]; intros H; [reflexivity|].
  apply has_close_cons in H as [Hc Hx].
  cbn [app]. rewrite has_close_step; [now apply IH|].
  apply (starts_close_app_lt (c :: x) t); [discriminate | exact Hc].
Qed.

Ltac skip_chars :=
  repeat first
    [ rewrite has_close_skip by (intro; discriminate)
    | rewrite has_close_skip_lt by (intro; discriminate) ].

Lemma wrap_no_close n i : has_close i = false -> has_close (wrap n i) = false.
Proof.
  intros Hi. unfold wrap, quoted.
  destruct (shade_digit_cases n) as (d & -> & Hd).
  assert (Hd' : d <> 60) by lia.
  change (js "</span>") with (60 :: js "/span>").
  cbn [js list_ascii_of_string map app]. skip_chars.
  rewrite (has_close_skip d) by exact Hd'. skip_chars.
  rewrite has_close_app_lt by exact Hi. now skip_chars.
Qed.

Lemma hasClip_here s : clip_at s = true -> hasClip s = true.
Proof. intros H. destruct s; cbn [hasClip]; now rewrite H. Qed.

(** The wrapper carries the clip marker the pattern looks for. *)
Lemma wrap_hasClip n i : hasClip (wrap n i) = true.
Proof.
  apply hasClip_here. unfold wrap.
  destruct (shade_digit_cases n) as (d & -> & [->|[->|[->| ->]]]);
    reflexivity.
Qed.

(** ** Numbered matches *)

Lemma nth_error_numbered {A B} (f : nat * A -> B) (l : list A) n k :
  nth_error (map f (combine (seq n (List.length l)) l)) k =
  option_map (fun x => f ((n + k)%nat, x)) (nth_error l k).
Proof.
  revert n k. induction l as [|x l IH]; intros n k.
  - now destruct k.
  - destruct k as [|k]; cbn.
    + now rewrite Nat.add_0_r.
    + rewrite IH. now replace (S n + k)%nat with (n + S k)%nat by lia.
Qed.

Section ShapedBlocks.

Variable fa : nat -> jsstring -> jsstring.
Variable fi : nat -> jsstring -> jsstring.
Hypothesis fa_no_gt : forall n a, no_gt a -> no_gt (fa n a).
Hypothesis fi_no_close :
  forall n i, has_close i = false -> has_close (fi n i) = false.

(** The [k]-th match of the output is the rebuilt [k]-th match of the
    input. *)
Lemma blocks_replace s k :
  nth_error (blocks (fst (replace_p (shaped fa fi) 0%nat s))) k =
  option_map (rebuilt fa fi k) (nth_error (blocks s) k).
Proof.
  unfold blocks. rewrite scan_replace by assumption.
  rewrite matches_relabel. apply (nth_error_numbered
    (fun km => rebuilt fa fi (fst km) (snd km))).
Qed.

Lemma replace_text n s :
  fst (replace_p (shaped fa fi) n s) =
  flat_map text (relabel fa fi n (scan s)).
Proof. unfold replace_p. now rewrite render_shaped. Qed.

Lemma replace_count n s :
  snd (replace_p (shaped fa fi) n s) = (n + List.length (blocks s))%nat.
Proof. unfold replace_p. now rewrite render_shaped. Qed.

End ShapedBlocks.

Lemma relabel_ext fa fi ga gi n segs :
  (forall k a, fa k a = ga k a) -> (forall k i, fi k i = gi k i) ->
  relabel fa fi n segs = relabel ga gi n segs.
Proof.
  intros Ha Hi. revert n.
  induction segs as [|[c|m] segs IH]; intros n; cbn [relabel].
  - reflexivity.
  - now rewrite IH.
  - unfold rebuilt. now rewrite Ha, Hi, IH.
Qed.

Lemma relabel_relabel fa fi ga gi n segs :
  relabel ga gi n (relabel fa fi n segs) =
  relabel (fun k a => ga k (fa k a)) (fun k i => gi k (fi k i)) n segs.
Proof.
  revert n. induction segs as [|[c|m] segs IH]; intros n; cbn [relabel].
  - reflexivity.
  - now rewrite IH.
  - now rewrite IH.
Qed.

Lemma relabel_lits fa fi n segs :
  matches_of segs = [] -> flat_map text (relabel fa fi n segs)
                          = flat_map text segs.
Proof.
  induction segs as [|[c|m] segs IH]; intros H; cbn in *.
  - reflexivity.
  - now rewrite IH.
  - discriminate.
Qed.

(** ** The two revisions as tag rebuilders *)

Lemma classes_callback_shaped n a i :
  ClassesOnly.callback n a i = shaped classes_attrs classes_inner n a i.
Proof.
  unfold ClassesOnly.callback, shaped, classes_attrs, classes_inner.
  now rewrite Nat.add_1_r.
Qed.

Lemma classes_attrs_no_gt n a : no_gt a -> no_gt (classes_attrs n a).
Proof.
  intros Ha. apply add_class_no_gt; [|exact Ha].
  destruct (shade_digit_cases n) as (d & -> & [->|[->|[->| ->]]]);
    reflexivity.
Qed.

Lemma classes_inner_no_close n i :
  has_close i = false -> has_close (classes_inner n i) = false.
Proof. trivial. Qed.

Lemma classes_transform_on c :
  ClassesOnly.transform (on c)
  = fst (replace_p (shaped classes_attrs classes_inner) 0%nat c).
Proof.
  unfold ClassesOnly.transform, on, flag_off.
  cbn [viewSettings gradientEnabled content].
  now rewrite (replace_p_ext _ _ classes_callback_shaped).
Qed.

Lemma wrapper_callback_shaped n a i :
  Wrapper.callback n a i = shaped wrapper_attrs wrapper_inner n a i.
Proof.
  unfold Wrapper.callback, shaped, wrapper_attrs, wrapper_inner, wrap.
  rewrite Nat.add_1_r. now destruct (hasClip i).
Qed.

Lemma wrapper_attrs_no_gt n a : no_gt a -> no_gt (wrapper_attrs n a).
Proof. intros Ha. now apply add_class_no_gt. Qed.

Lemma wrapper_inner_no_close n i :
  has_close i = false -> has_close (wrapper_inner n i) = false.
Proof.
  intros Hi. unfold wrapper_inner.
  destruct (hasClip i); [exact Hi | now apply wrap_no_close].
Qed.

Lemma wrapper_inner_hasClip n i : hasClip (wrapper_inner n i) = true.
Proof.
  unfold wrapper_inner. destruct (hasClip i) eqn:E; [exact E|].
  apply wrap_hasClip.
Qed.

(** A body that went through the callback goes through it unchanged. *)
Lemma wrapper_inner_idem n k i :
  wrapper_inner k (wrapper_inner n i) = wrapper_inner n i.
Proof. unfold wrapper_inner at 1. now rewrite wrapper_inner_hasClip. Qed.

Lemma wrapper_transform_on c :
  Wrapper.transform (on c)
  = fst (replace_p (shaped wrapper_attrs wrapper_inner) 0%nat c).
Proof.
  unfold Wrapper.transform, on, flag_off.
  cbn [viewSettings gradientEnabled content].
  now rewrite (replace_p_ext _ _ wrapper_callback_shaped).
Qed.

(** ** The class and clip patterns, step by step *)

Lemma class_match_here s cl af :
  class_at s = Some (cl, af) -> class_match s = Some ([], cl, af).
Proof. intros H. destruct s; cbn [class_match]; now rewrite H. Qed.

Lemma class_match_later c s :
  class_at (c :: s) = None ->
  class_match (c :: s)
  = match class_match s with
    | Some (b, cl, af) => Some (c :: b, cl, af)
    | None => None
    end.
Proof. intros H. cbn [class_match]. now rewrite H. Qed.

Lemma class_keyword_length kw : class_keyword kw -> List.length kw = 6%nat.
Proof. intros H. apply Forall2_length in H. now rewrite <- H. Qed.

Lemma hasClip_app_l pre s : hasClip s = true -> hasClip (pre ++ s) = true.
Proof.
  intros H. induction pre as [|c pre IH]; [exact H|].
  cbn [app hasClip]. rewrite IH. apply orb_true_r.
Qed.

Lemma span_of_app keep ws x t :
  forallb keep ws = true -> keep x = false ->
  span_of keep (ws ++ x :: t) = (ws, x :: t).
Proof.
  intros Hws Hx. induction ws as [|c ws IH]; cbn [app span_of].
  - now rewrite Hx.
  - cbn in Hws. apply andb_true_iff in Hws as [Hc Hws].
    now rewrite Hc, (IH Hws).
Qed.

Lemma strip_same pat s : strip N.eqb pat (pat ++ s) = Some (pat, s).
Proof.
  apply strip_complete. induction pat; constructor; auto using N.eqb_refl.
Qed.

Lemma forallb_not_quote r :
  existsb is_quote r = false ->
  forallb (fun c => negb (is_quote c)) r = true.
Proof.
  induction r as [|c r IH]; cbn; [reflexivity|].
  intros H. apply orb_false_iff in H as [Hc Hr]. now rewrite Hc, IH.
Qed.

Lemma last_nonempty (x : N) l d d' : last (x :: l) d = last (x :: l) d'.
Proof.
  revert x. induction l as [|y l IH]; intros x; [reflexivity|].
  change (last (y :: l) d = last (y :: l) d'). apply IH.
Qed.

Lemma clip_in_app prev r1 r2 :
  is_word (last r1 prev) = false ->
  match r2 with [] => True | n :: _ => is_word n = false end ->
  clip_in prev (r1 ++ js "g-clip" ++ r2) = true.
Proof.
  intros H1 H2. revert prev H1. induction r1 as [|c r1 IH]; intros prev H1.
  - cbn [last] in H1. change (js "g-clip" ++ r2)
      with (103 :: (js "-clip" ++ r2)).
    cbn [app clip_in]. rewrite H1.
    change (103 :: js "-clip" ++ r2) with (js "g-clip" ++ r2).
    rewrite strip_same. destruct r2 as [|n r2]; [reflexivity|].
    now rewrite H2.
  - cbn [app clip_in]. rewrite IH; [apply orb_true_r|].
    destruct r1 as [|x r1]; [exact H1|].
    now rewrite (last_nonempty x r1 c prev).
Qed.

(** ** The plain descriptions and the matching functions *)

Lemma has_close_true_iff i :
  has_close i = true <->
  exists x q y, is_p q = true /\ i = x ++ close_tag q ++ y.
Proof.
  split.
  - unfold has_close. destruct (split_close i) as [[[x cl] y]|] eqn:E;
      [|discriminate]. intros _.
    apply split_close_sound in E as (q & Hq & -> & -> & _).
    now exists x, q, y.
  - intros (x & q & y & Hq & ->). apply has_close_app_r.
    unfold has_close.
    pose proof (split_close_complete [] q y has_close_nil Hq) as E.
    cbn [app] in E. now rewrite E.
Qed.

Lemma has_close_false_iff i : has_close i = false <-> no_close_tag i.
Proof.
  unfold no_close_tag. split.
  - intros H x q y Hq E. apply eq_ci_p in Hq.
    assert (has_close i = true) by (apply has_close_true_iff; eauto).
    congruence.
  - intros H. destruct (has_close i) eqn:E; [|reflexivity].
    apply has_close_true_iff in E as (x & q & y & Hq & E).
    exfalso. apply eq_ci_p in Hq. exact (H x q y Hq E).
Qed.

Lemma no_gt_iff a : no_gt a <-> ~ In 62 a.
Proof.
  unfold no_gt. induction a as [|c a IH]; cbn [existsb In]; [tauto|].
  rewrite orb_false_iff, IH. unfold is_gt. rewrite N.eqb_neq.
  split; [intros [H1 H2] [H|H]; auto | intros H; split; auto].
Qed.

(** What makes a match, in plain terms. *)
Lemma well_formed_iff m : well_formed m <-> paragraph_text m.
Proof.
  unfold well_formed, paragraph_text, is_p, tag_letter. split.
  - intros (p & q & Hp & Hq & Hm & Ha & Hi).
    exists p, q. apply eq_ci_p in Hp, Hq. apply no_gt_iff in Ha.
    apply has_close_false_iff in Hi.
    repeat split; try assumption. now rewrite Hm at 1.
  - intros (p & q & Hp & Hq & Hm & Ha & Hi).
    exists p, q. apply eq_ci_p in Hp, Hq. apply no_gt_iff in Ha.
    apply has_close_false_iff in Hi.
    repeat split; try assumption.
    destruct m as [w a i]. cbn in *. unfold block. now rewrite Hm.
Qed.

Lemma match_p_iff c m r :
  match_p c = Some (m, r) <-> paragraph_text m /\ c = whole m ++ r.
Proof.
  rewrite <- well_formed_iff. split.
  - intros H. apply match_p_sound in H. tauto.
  - intros [(p & q & Hp & Hq & Hm & Ha & Hi) ->]. rewrite Hm at 1 2.
    now apply match_p_complete.
Qed.

Lemma match_p_none_iff c :
  match_p c = None <->
  forall m r, paragraph_text m -> c <> whole m ++ r.
Proof.
  split.
  - intros H m r Hm E.
    assert (match_p c = Some (m, r)) by (apply match_p_iff; auto).
    congruence.
  - intros H. destruct (match_p c) as [[m r]|] eqn:E; [|reflexivity].
    apply match_p_iff in E as [Hm E]. exfalso. exact (H m r Hm E).
Qed.

Lemma map_outside_relabel fa fi n segs :
  map outside (relabel fa fi n segs) = map outside segs.
Proof.
  revert n. induction segs as [|[c|m] segs IH]; intros n; cbn;
    [reflexivity | |]; now rewrite IH.
Qed.

Lemma strip_eqb_sound pat s m r :
  strip N.eqb pat s = Some (m, r) -> m = pat /\ s = pat ++ r.
Proof.
  intros H. apply strip_sound in H as [-> HF].
  assert (E : m = pat).
  { clear r. induction HF as [|p c pat m Hpc _ IH]; [reflexivity|].
    apply N.eqb_eq in Hpc. now subst. }
  now subst.
Qed.

Lemma span_of_sound keep s a r :
  span_of keep s = (a, r) ->
  s = a ++ r /\ forallb keep a = true
  /\ match r with [] => True | x :: _ => keep x = false end.
Proof.
  revert a r. induction s as [|c s IH]; intros a r H; cbn [span_of] in H.
  - inversion H; subst. repeat split.
  - destruct (keep c) eqn:E.
    + destruct (span_of keep s) as [a' r'] eqn:E'. inversion H; subst.
      destruct (IH _ _ eq_refl) as (-> & Ha & Hr).
      repeat split; [|exact Hr]. cbn. now rewrite E, Ha.
    + inversion H; subst. repeat split. exact E.
Qed.

Lemma existsb_not_quote r :
  forallb (fun c => negb (is_quote c)) r = true ->
  existsb is_quote r = false.
Proof.
  induction r as [|c r IH]; cbn; [reflexivity|].
  intros H. apply andb_true_iff in H as [Hc Hr].
  apply negb_true_iff in Hc. now rewrite Hc, IH.
Qed.

Lemma clip_in_sound prev run :
  clip_in prev run = true ->
  exists r1 r2,
    run = r1 ++ js "g-clip" ++ r2
    /\ is_word (last r1 prev) = false
    /\ match r2 with [] => True | n :: _ => is_word n = false end.
Proof.
  revert prev. induction run as [|c run IH]; intros prev H;
    cbn [clip_in] in H; [discriminate|].
  apply orb_true_iff in H as [H|H].
  - apply andb_true_iff in H as [Hp H]. apply negb_true_iff in Hp.
    destruct (strip N.eqb (js "g-clip") (c :: run)) as [[m r2]|] eqn:E;
      [|discriminate].
    apply strip_eqb_sound in E as [-> E].
    exists [], r2. rewrite E. repeat split; [exact Hp|].
    destruct r2 as [|n r2]; [exact I | now apply negb_true_iff in H].
  - destruct (IH c H) as (r1 & r2 & -> & Hl & Hr).
    exists (c :: r1), r2. repeat split; [|exact Hr].
    destruct r1 as [|x r1]; [exact Hl|].
    change (last (c :: x :: r1) prev) with (last (x :: r1) prev).
    now rewrite (last_nonempty x r1 prev c).
Qed.

Lemma is_quote_not_word q : is_quote q = true -> is_word q = false.
Proof.
  unfold is_quote. intros H. apply orb_true_iff in H as [H|H];
    apply N.eqb_eq in H; now subst.
Qed.

Lemma clip_at_sound s :
  clip_at s = true ->
  exists ws q1 r1 r2 q2 post,
    s = js "<span" ++ ws ++ js "class=" ++ q1 :: r1 ++ js "g-clip" ++ r2
        ++ q2 :: post
    /\ ws <> [] /\ forallb is_space ws = true
    /\ is_quote q1 = true /\ is_quote q2 = true
    /\ existsb is_quote r1 = false /\ existsb is_quote r2 = false
    /\ is_word (last r1 q1) = false /\ is_word (hd q2 r2) = false.
Proof.
  unfold clip_at. intros H.
  destruct (strip N.eqb (js "<span") s) as [[m t]|] eqn:E1; [|discriminate].
  apply strip_eqb_sound in E1 as [_ ->].
  destruct (span_of is_space t) as [ws t2] eqn:E2.
  apply span_of_sound in E2 as (-> & Hws & _).
  destruct ws as [|w ws]; [discriminate|].
  destruct (strip N.eqb (js "class=") t2) as [[m2 t3]|] eqn:E3;
    [|discriminate].
  apply strip_eqb_sound in E3 as [_ ->].
  destruct t3 as [|q1 t3]; [discriminate|].
  apply andb_true_iff in H as [Hq1 H].
  destruct (span_of (fun c => negb (is_quote c)) t3) as [run t4] eqn:E4.
  apply span_of_sound in E4 as (-> & Hrun & Hq2).
  destruct t4 as [|q2 post]; [discriminate|].
  apply negb_false_iff in Hq2.
  apply clip_in_sound in H as (r1 & r2 & -> & Hl & Hr).
  apply existsb_not_quote in Hrun. rewrite !existsb_app in Hrun.
  apply orb_false_iff in Hrun as [Hr1 Hrun].
  apply orb_false_iff in Hrun as [_ Hr2].
  exists (w :: ws), q1, r1, r2, q2, post.
  repeat split; try assumption; try discriminate.
  - now norm_app.
  - destruct r2 as [|n r2]; [now apply is_quote_not_word | exact Hr].
Qed.

Lemma hasClip_marker pre ws q1 r1 r2 q2 post :
  ws <> [] -> forallb is_space ws = true ->
  is_quote q1 = true -> is_quote q2 = true ->
  existsb is_quote r1 = false -> existsb is_quote r2 = false ->
  is_word (last r1 q1) = false -> is_word (hd q2 r2) = false ->
  hasClip (pre ++ js "<span" ++ ws ++ js "class=" ++ q1 :: r1
           ++ js "g-clip" ++ r2 ++ q2 :: post) = true.
Proof.
  intros Hne Hws Hq1 Hq2 Hr1 Hr2 Hl Hh.
  apply hasClip_app_l, hasClip_here. unfold clip_at.
  rewrite strip_same.
  change (js "class=" ++ q1 :: r1 ++ js "g-clip" ++ r2 ++ q2 :: post)
    with (99 :: (js "lass=" ++ q1 :: r1 ++ js "g-clip" ++ r2
                 ++ q2 :: post)).
  rewrite (span_of_app is_space ws 99 _ Hws eq_refl).
  destruct ws as [|w ws]; [congruence|].
  change (99 :: (js "lass=" ++ q1 :: r1 ++ js "g-clip" ++ r2
                 ++ q2 :: post))
    with (js "class=" ++ q1 :: r1 ++ js "g-clip" ++ r2 ++ q2 :: post).
  rewrite strip_same, Hq1. cbn [andb].
  replace (r1 ++ js "g-clip" ++ r2 ++ q2 :: post)
    with ((r1 ++ js "g-clip" ++ r2) ++ q2 :: post) by now norm_app.
  rewrite span_of_app.
  - apply clip_in_app; [exact Hl|]. destruct r2; [exact I | exact Hh].
  - apply forallb_not_quote. rewrite !existsb_app, Hr1, Hr2.
    reflexivity.
  - now rewrite Hq2.
Qed.

(** The test of the source answers true exactly on the bodies that carry
    the clip marker. *)
Lemma hasClip_iff body : hasClip body = true <-> carries_clip_marker body.
Proof.
  split.
  - induction body as [|c body IH]; intros H.
    + cbn in H. discriminate.
    + cbn [hasClip] in H. apply orb_true_iff in H as [H|H].
      * apply clip_at_sound in H
          as (ws & q1 & r1 & r2 & q2 & post & E & Hrest).
        exists [], ws, q1, r1, r2, q2, post. split; [exact E | exact Hrest].
      * destruct (IH H)
          as (pre & ws & q1 & r1 & r2 & q2 & post & -> & Hrest).
        exists (c :: pre), ws, q1, r1, r2, q2, post.
        split; [reflexivity | exact Hrest].
  - intros (pre & ws & q1 & r1 & r2 & q2 & post & -> & Hne & Hws & Hq1
            & Hq2 & Hr1 & Hr2 & Hl & Hh).
    now apply hasClip_marker.
Qed.

Lemma hasClip_false_iff body :
  hasClip body = false <-> ~ carries_clip_marker body.
Proof.
  rewrite <- hasClip_iff. destruct (hasClip body); split;
    congruence || (intros H; exfalso; now apply H) || discriminate.
Qed.

(** The first match of the class pattern is the leftmost text [class=]
    with a value between double quotes. *)
Lemma class_match_first before kw classes after :
  class_keyword kw -> existsb is_dq classes = false ->
  leftmost before (before ++ kw ++ quoted classes ++ after) ->
  class_match (before ++ kw ++ quoted classes ++ after)
  = Some (before, classes, after).
Proof.
  intros Hkw Hcl. induction before as [|c b IH]; intros Hfirst.
  - cbn [app]. apply class_match_here. now apply class_at_complete.
  - cbn [app]. rewrite class_match_later.
    + rewrite IH; [reflexivity|].
      intros x kw' cl' y Hkw' Hcl' E.
      specialize (Hfirst (c :: x) kw' cl' y Hkw' Hcl').
      cbn [app List.length] in Hfirst. rewrite E in Hfirst.
      specialize (Hfirst eq_refl). lia.
    + destruct (class_at (c :: b ++ kw ++ quoted classes ++ after))
        as [[cl af]|] eqn:E; [|reflexivity].
      apply class_at_sound in E as (kw' & Hkw' & E & Hcl').
      specialize (Hfirst [] kw' cl af Hkw' Hcl').
      cbn [app List.length] in Hfirst. specialize (Hfirst E). lia.
Qed.

Lemma class_match_positions s b cl af :
  class_match s = Some (b, cl, af) ->
  forall x t, s = x ++ t -> (List.length x < List.length b)%nat ->
              class_at t = None.
Proof.
  revert b. induction s as [|c s IH]; intros b H x t E Hlt.
  - cbn in H. discriminate.
  - cbn [class_match] in H.
    destruct (class_at (c :: s)) as [[cl' af']|] eqn:E1.
    + inversion H; subst. cbn in Hlt. lia.
    + destruct (class_match s) as [[[b' cl'] af']|] eqn:E2; [|discriminate].
      inversion H; subst. destruct x as [|x0 x].
      * cbn [app] in E. now subst t.
      * cbn [app] in E. inversion E; subst.
        apply (IH b' eq_refl x t eq_refl). cbn in Hlt. lia.
Qed.

(** And the other way round. *)
Lemma class_match_leftmost s b cl af :
  class_match s = Some (b, cl, af) -> leftmost b s.
Proof.
  intros H x kw cl' y Hkw Hcl' E.
  destruct (Nat.le_gt_cases (List.length b) (List.length x)) as [|Hlt];
    [assumption|exfalso].
  pose proof (class_match_positions s b cl af H x _ E Hlt) as Hnone.
  rewrite class_at_complete in Hnone by assumption. discriminate.
Qed.

Lemma class_match_some x kw classes y :
  class_keyword kw -> existsb is_dq classes = false ->
  class_match (x ++ kw ++ quoted classes ++ y) <> None.
Proof.
  intros Hkw Hcl. induction x as [|c x IH]; cbn [app].
  - rewrite (class_match_here _ classes y); [discriminate|].
    now apply class_at_complete.
  - intros H. apply class_match_none_cons in H as [_ H]. now apply IH.
Qed.

(** [add_class] merges the tokens in. *)
Lemma add_class_merged extra a : merged extra a (add_class extra a).
Proof.
  unfold add_class, merged.
  destruct (class_match a) as [[[before classes] after]|] eqn:E.
  - left. pose proof (class_match_leftmost _ _ _ _ E) as Hl.
    apply class_match_sound in E as (kw & Hkw & E & Hcl).
    exists before, kw, classes, after. repeat split; assumption.
  - right. split; [|reflexivity].
    intros x kw classes y Hkw Hcl Ea. subst a.
    now apply (class_match_some x kw classes y Hkw Hcl).
Qed.

(** The merged text is one text only. *)
Lemma merged_add_class extra a a' : merged extra a a' -> a' = add_class extra a.
Proof.
  unfold add_class.
  intros [(before & kw & classes & after & Hkw & Hcl & Ea & Hl & ->)
         |[Hnone ->]].
  - rewrite Ea in Hl |- *. now rewrite class_match_first.
  - destruct (class_match a) as [[[b cl] af]|] eqn:E; [|reflexivity].
    apply class_match_sound in E as (kw & Hkw & E & Hcl).
    exfalso. exact (Hnone b kw cl af Hkw Hcl E).
Qed.

Lemma class_match_needs_word a :
  (forall x w y, class_word w -> a <> x ++ w ++ y) -> class_match a = None.
Proof.
  intros H. destruct (class_match a) as [[[b cl] af]|] eqn:E;
    [|reflexivity].
  apply class_match_sound in E as (kw & Hkw & E & _).
  unfold class_keyword in Hkw.
  change (js "class=") with (js "class" ++ [61]) in Hkw.
  apply Forall2_app_inv_l in Hkw as (w & e & Hw & _ & ->).
  exfalso. apply (H b w (e ++ quoted cl ++ af) Hw).
  rewrite E. now norm_app.
Qed.

(** ** The counter in a store *)

Lemma update_cell_middle pre n v post :
  update_cell (List.length pre) v (pre ++ n :: post) = pre ++ v :: post.
Proof.
  unfold update_cell. induction pre as [|x pre IH]; [reflexivity|].
  cbn [List.length app firstn skipn]. f_equal.
  exact IH.
Qed.

Section Store.

Variable callback : nat -> jsstring -> jsstring -> jsstring * nat.

(** The scan with the counter in a cell does what the scan with the counter
    handed along does, and touches no other cell. *)
Lemma render_at pre post segs : forall n,
  render (callback_at callback (List.length pre)) (pre ++ n :: post) segs
  = (fst (render callback n segs),
     pre ++ snd (render callback n segs) :: post).
Proof.
  induction segs as [|[c|m] segs IH]; intros n; cbn [render].
  - reflexivity.
  - rewrite IH. now destruct (render callback n segs).
  - unfold callback_at at 1. rewrite nth_middle.
    destruct (callback n (attrs m) (inner m)) as [out n'].
    rewrite update_cell_middle, IH.
    now destruct (render callback n' segs).
Qed.

Lemma transform_in_eq ctx store :
  transform_in callback ctx store
  = if flag_off (viewSettings ctx) then (content ctx, store)
    else (fst (replace_p callback 0%nat (content ctx)),
          store ++ [snd (replace_p callback 0%nat (content ctx))]).
Proof.
  unfold transform_in. destruct (flag_off (viewSettings ctx)); [reflexivity|].
  unfold replace_p. apply (render_at store []).
Qed.

Lemma transform_in_frame ctx store :
  firstn (List.length store) (snd (transform_in callback ctx store)) = store.
Proof.
  rewrite transform_in_eq. destruct (flag_off (viewSettings ctx)); cbn [snd].
  - apply firstn_all.
  - now rewrite firstn_app, firstn_all, Nat.sub_diag, app_nil_r.
Qed.

Lemma session_in_outputs calls : forall store,
  fst (session_in callback calls store)
  = map (fun ctx => fst (transform_in callback ctx [])) calls.
Proof.
  induction calls as [|ctx calls IH]; intros store; cbn [session_in map].
  - reflexivity.
  - rewrite (transform_in_eq ctx store), (transform_in_eq ctx []).
    destruct (flag_off (viewSettings ctx)); cbn [fst].
    + specialize (IH store).
      destruct (session_in callback calls store) as [outs st].
      cbn [fst] in *. now rewrite IH.
    + specialize (IH (store ++ [snd (replace_p callback 0%nat
                                       (content ctx))])).
      destruct (session_in callback calls _) as [outs st].
      cbn [fst] in *. now rewrite IH.
Qed.

End Store.

(** * The claims of the specification *)

(** ** The paragraphs of the output *)

Lemma rebuilt_blocks (c : jsstring) (k : nat) (m : pmatch) :
  nth_error (blocks c) k = Some m ->
  nth_error (blocks (ClassesOnly.transform (on c))) k
  = Some (rebuilt classes_attrs classes_inner k m)
  /\ nth_error (blocks (Wrapper.transform (on c))) k
     = Some (rebuilt wrapper_attrs wrapper_inner k m).
Proof.
  intros H. split.
  - rewrite classes_transform_on.
    rewrite blocks_replace, H
      by auto using classes_attrs_no_gt, classes_inner_no_close.
    reflexivity.
  - rewrite wrapper_transform_on.
    rewrite blocks_replace, H
      by auto using wrapper_attrs_no_gt, wrapper_inner_no_close.
    reflexivity.
Qed.

Lemma wrapper_blocks_length (c : jsstring) :
  List.length (blocks (Wrapper.transform (on c))) = List.length (blocks c).
Proof.
  rewrite wrapper_transform_on. unfold blocks.
  rewrite scan_replace, matches_relabel
    by auto using wrapper_attrs_no_gt, wrapper_inner_no_close.
  rewrite length_map, length_combine, length_seq. apply Nat.min_id.
Qed.

Lemma classes_attrs_merged k a :
  merged (js "g-line " ++ js "g-l" ++ [48 + N.of_nat (k mod 4)]) a
    (classes_attrs k a).
Proof.
  unfold classes_attrs. rewrite shade_digit. apply add_class_merged.
Qed.

Lemma wrapper_inner_cases k i :
  (~ carries_clip_marker i ->
   wrapper_inner k i
   = js "<span class="
     ++ quoted (js "g-clip " ++ js "g-l" ++ [48 + N.of_nat (k mod 4)])
     ++ js ">" ++ i ++ js "</span>")
  /\ (carries_clip_marker i -> wrapper_inner k i = i).
Proof.
  unfold wrapper_inner, wrap. rewrite shade_digit. split; intros H.
  - apply hasClip_false_iff in H. now rewrite H.
  - apply hasClip_iff in H. now rewrite H.
Qed.

(** C1.  The revision that adds classes only, with the feature flag on,
    turns [<p>Hello</p><p>World</p>] into the same two paragraphs with the
    class attributes [g-line g-l0] and [g-line g-l1], and nothing else
    changes. *)
Theorem classes_only_hello_world :
  ClassesOnly.transform (on (js "<p>Hello</p><p>World</p>")) =
  js "<p class=" ++ quoted (js "g-line g-l0") ++ js ">Hello</p><p class="
  ++ quoted (js "g-line g-l1") ++ js ">World</p>".
Proof. vm_compute. reflexivity. Qed.

(** C2, the claim as it stands, fails in the wrapper revision.  A paragraph
    whose body carries a clip marker already is given no shade: the first
    paragraph below keeps the span with the index 2 that it came with, its
    own class attribute gets the line marker only, and the second paragraph
    gets the index 1.  The indices read 2, 1 and not 0, 1. *)
Lemma palette_cycling_counterexample :
  Wrapper.transform
    (on (js "<p><span class=" ++ quoted (js "g-clip g-l2")
         ++ js ">x</span></p><p>y</p>"))
  = js "<p class=" ++ quoted (js "g-line") ++ js "><span class="
    ++ quoted (js "g-clip g-l2") ++ js ">x</span></p><p class="
    ++ quoted (js "g-line") ++ js "><span class="
    ++ quoted (js "g-clip g-l1") ++ js ">y</span></p>"
  /\ map attrs
       (blocks (Wrapper.transform
                  (on (js "<p><span class=" ++ quoted (js "g-clip g-l2")
                       ++ js ">x</span></p><p>y</p>"))))
     = [js " class=" ++ quoted (js "g-line");
        js " class=" ++ quoted (js "g-line")]
  /\ map inner
       (blocks (Wrapper.transform
                  (on (js "<p><span class=" ++ quoted (js "g-clip g-l2")
                       ++ js ">x</span></p><p>y</p>"))))
     = [js "<span class=" ++ quoted (js "g-clip g-l2") ++ js ">x</span>";
        js "<span class=" ++ quoted (js "g-clip g-l1") ++ js ">y</span>"].
Proof. repeat split; vm_compute; reflexivity. Qed.

(** C2, amended.  Take the [k]-th match [m] of the content, counted from 0
    in the order of the text, and let [shade] be the token [g-l] with the
    digit of [k mod 4] (48 is the code unit of the digit 0).  The [k]-th
    paragraph of either output is [<p], a tag text, [>], a body and [</p>].
    In the classes-only revision the tag text is that of [m] with
    [g-line] and [shade] merged in, and the body is that of [m].  In the
    wrapper revision the tag text is that of [m] with [g-line] merged in,
    and the body is that of [m] inside a span of the classes [g-clip] and
    [shade], unless the body of [m] carries the clip marker: then it is the
    body of [m], and no shade is attached. *)
Theorem palette_cycling_amended (c : jsstring) (k : nat) (m : pmatch) :
  nth_error (blocks c) k = Some m ->
  let shade := js "g-l" ++ [48 + N.of_nat (k mod 4)] in
  exists mc mw,
    nth_error (blocks (ClassesOnly.transform (on c))) k = Some mc
    /\ nth_error (blocks (Wrapper.transform (on c))) k = Some mw
    /\ whole mc = js "<p" ++ attrs mc ++ js ">" ++ inner mc ++ js "</p>"
    /\ whole mw = js "<p" ++ attrs mw ++ js ">" ++ inner mw ++ js "</p>"
    /\ merged (js "g-line " ++ shade) (attrs m) (attrs mc)
    /\ inner mc = inner m
    /\ merged (js "g-line") (attrs m) (attrs mw)
    /\ (~ carries_clip_marker (inner m) ->
        inner mw = js "<span class=" ++ quoted (js "g-clip " ++ shade)
                   ++ js ">" ++ inner m ++ js "</span>")
    /\ (carries_clip_marker (inner m) -> inner mw = inner m).
Proof.
  intros H shade. destruct (rebuilt_blocks c k m H) as [Hc Hw].
  eexists _, _. split; [exact Hc|]. split; [exact Hw|].
  cbn [rebuilt block whole attrs inner].
  split; [reflexivity|]. split; [reflexivity|].
  split; [apply classes_attrs_merged|]. split; [reflexivity|].
  split; [apply add_class_merged|]. apply wrapper_inner_cases.
Qed.

(** The fifth of five paragraphs starts the palette again, in both
    revisions, and the five paragraphs carry the indices 0, 1, 2, 3, 0: in
    the class attribute in the classes-only revision, on the wrapper span in
    the wrapper revision. *)
Lemma palette_cycling_amended_witness :
  (exists mc mw,
     nth_error (blocks (ClassesOnly.transform (on five_paragraphs))) 4
     = Some mc
     /\ nth_error (blocks (Wrapper.transform (on five_paragraphs))) 4
        = Some mw
     /\ attrs mc = js " class=" ++ quoted (js "g-line g-l0")
     /\ inner mc = js "e"
     /\ attrs mw = js " class=" ++ quoted (js "g-line")
     /\ inner mw = js "<span class=" ++ quoted (js "g-clip g-l0")
                   ++ js ">e</span>")
  /\ map attrs (blocks (ClassesOnly.transform (on five_paragraphs)))
     = map (fun d => js " class=" ++ quoted (js "g-line g-l" ++ [d]))
         [48; 49; 50; 51; 48]
  /\ map inner (blocks (Wrapper.transform (on five_paragraphs)))
     = map (fun dx => js "<span class="
                      ++ quoted (js "g-clip g-l" ++ [fst dx])
                      ++ js ">" ++ [snd dx] ++ js "</span>")
         [(48, 97); (49, 98); (50, 99); (51, 100); (48, 101)].
Proof.
  split; [|split; vm_compute; reflexivity].
  destruct (palette_cycling_amended five_paragraphs 4
              (block 112 [] (js "e") 112) eq_refl)
    as (mc & mw & Hc & Hw & _ & _ & Mc & Ic & Mw & Iw & _).
  exists mc, mw. split; [exact Hc|]. split; [exact Hw|].
  split; [exact (merged_add_class _ _ _ Mc)|]. split; [exact Ic|].
  split; [exact (merged_add_class _ _ _ Mw)|].
  apply Iw. intros Hm. apply hasClip_iff in Hm. discriminate Hm.
Defined.

(** The tag texts of the [k]-th paragraph after each revision. *)
Lemma rebuilt_attrs (c : jsstring) (k : nat) (m : pmatch) :
  nth_error (blocks c) k = Some m ->
  exists mc mw,
    nth_error (blocks (ClassesOnly.transform (on c))) k = Some mc
    /\ nth_error (blocks (Wrapper.transform (on c))) k = Some mw
    /\ attrs mc = add_class (js "g-line g-l" ++ [48 + N.of_nat (k mod 4)])
                    (attrs m)
    /\ attrs mw = add_class (js "g-line") (attrs m).
Proof.
  intros H.
  exists (rebuilt classes_attrs classes_inner k m),
         (rebuilt wrapper_attrs wrapper_inner k m).
  repeat split.
  - rewrite classes_transform_on.
    rewrite blocks_replace, H
      by auto using classes_attrs_no_gt,
                    classes_inner_no_close.
    reflexivity.
  - rewrite wrapper_transform_on.
    rewrite blocks_replace, H
      by auto using wrapper_attrs_no_gt,
                    wrapper_inner_no_close.
    reflexivity.
  - cbn [rebuilt block attrs]. unfold classes_attrs.
    now rewrite shade_digit.
Qed.

(** C3, the claim as it stands, fails in the wrapper revision, which adds
    the line marker only to the class attribute [note], the shade token
    going to the wrapper span: the attribute does not become
    [note g-line g-l0]. *)
Lemma class_merge_counterexample :
  Wrapper.transform (on (js "<p class=" ++ quoted (js "note") ++ js ">x</p>"))
  = js "<p class=" ++ quoted (js "note g-line") ++ js "><span class="
    ++ quoted (js "g-clip g-l0") ++ js ">x</span></p>"
  /\ map attrs
       (blocks (Wrapper.transform
                  (on (js "<p class=" ++ quoted (js "note") ++ js ">x</p>"))))
     <> [js " class=" ++ quoted (js "note g-line g-l0")].
Proof.
  split; [vm_compute; reflexivity|]. vm_compute. discriminate.
Qed.

(** C3, amended.  Take the [k]-th match [m] of the content and the [k]-th
    paragraphs [mc] and [mw] of the two outputs.

    When the tag text of [m] has a class attribute written with double
    quotes (after white space and outside every quoted value the word
    [class=] in any mix of cases, then a value without double quote between
    double quotes) and no text of that form stands to its left, the
    attribute is rewritten in place: the classes-only revision puts
    [g-line] and the shade token after the value, the wrapper revision puts
    [g-line] after it, the keyword comes out in lower case, and the text
    before the attribute, the value and the text after it are kept as they
    are.

    When the word [class] stands nowhere in the tag text of [m], a class
    attribute with exactly those tokens is put at the end of the tag
    text. *)
Theorem class_merge_amended (c : jsstring) (k : nat) (m : pmatch) :
  nth_error (blocks c) k = Some m ->
  let shade := js "g-l" ++ [48 + N.of_nat (k mod 4)] in
  exists mc mw,
    nth_error (blocks (ClassesOnly.transform (on c))) k = Some mc
    /\ nth_error (blocks (Wrapper.transform (on c))) k = Some mw
    /\ (forall before kw classes after,
          attrs m = before ++ kw ++ quoted classes ++ after ->
          class_keyword kw -> existsb is_dq classes = false ->
          is_space (last before 0) = true -> outside_values before ->
          leftmost before (attrs m) ->
          attrs mc = before ++ js "class="
                     ++ quoted (classes ++ js " g-line " ++ shade) ++ after
          /\ attrs mw = before ++ js "class="
                        ++ quoted (classes ++ js " g-line") ++ after)
    /\ ((forall x w y, class_word w -> attrs m <> x ++ w ++ y) ->
        attrs mc = attrs m ++ js " class=" ++ quoted (js "g-line " ++ shade)
        /\ attrs mw = attrs m ++ js " class=" ++ quoted (js "g-line")).
Proof.
  intros H shade. destruct (rebuilt_blocks c k m H) as [Hc Hw].
  eexists _, _. split; [exact Hc|]. split; [exact Hw|].
  cbn [rebuilt block attrs]. unfold classes_attrs, wrapper_attrs.
  rewrite shade_digit. unfold add_class. split.
  - intros before kw classes after E Hkw Hcl _ _ Hl.
    rewrite E in Hl |- *. rewrite (class_match_first _ _ _ _ Hkw Hcl Hl).
    split; reflexivity.
  - intros Hnone. rewrite (class_match_needs_word _ Hnone).
    split; reflexivity.
Qed.

(** A tag with a class attribute between two others, and a tag without
    attributes. *)
Lemma class_merge_amended_witness :
  (exists mc mw,
     nth_error
       (blocks (ClassesOnly.transform
                  (on (js "<p id='a' class=" ++ quoted (js "foo bar")
                       ++ js " lang='en'>x</p><p>y</p>")))) 0 = Some mc
     /\ nth_error
          (blocks (Wrapper.transform
                     (on (js "<p id='a' class=" ++ quoted (js "foo bar")
                          ++ js " lang='en'>x</p><p>y</p>")))) 0 = Some mw
     /\ attrs mc = js " id='a' class=" ++ quoted (js "foo bar g-line g-l0")
                   ++ js " lang='en'"
     /\ attrs mw = js " id='a' class=" ++ quoted (js "foo bar g-line")
                   ++ js " lang='en'")
  /\ (exists mc mw,
        nth_error
          (blocks (ClassesOnly.transform
                     (on (js "<p id='a' class=" ++ quoted (js "foo bar")
                          ++ js " lang='en'>x</p><p>y</p>")))) 1 = Some mc
        /\ nth_error
             (blocks (Wrapper.transform
                        (on (js "<p id='a' class=" ++ quoted (js "foo bar")
                             ++ js " lang='en'>x</p><p>y</p>")))) 1
           = Some mw
        /\ attrs mc = js " class=" ++ quoted (js "g-line g-l1")
        /\ attrs mw = js " class=" ++ quoted (js "g-line")).
Proof.
  split.
  - destruct (class_merge_amended
                (js "<p id='a' class=" ++ quoted (js "foo bar")
                 ++ js " lang='en'>x</p><p>y</p>") 0
                (block 112 (js " id='a' class=" ++ quoted (js "foo bar")
                            ++ js " lang='en'") (js "x") 112) eq_refl)
      as (mc & mw & Hc & Hw & Hpresent & _).
    exists mc, mw. split; [exact Hc|]. split; [exact Hw|].
    apply (Hpresent (js " id='a' ") (js "class=") (js "foo bar")
             (js " lang='en'")).
    + reflexivity.
    + unfold class_keyword. repeat constructor.
    + reflexivity.
    + reflexivity.
    + reflexivity.
    + apply (class_match_leftmost _ _ (js "foo bar") (js " lang='en'")).
      reflexivity.
  - destruct (class_merge_amended
                (js "<p id='a' class=" ++ quoted (js "foo bar")
                 ++ js " lang='en'>x</p><p>y</p>") 1
                (block 112 [] (js "y") 112) eq_refl)
      as (mc & mw & Hc & Hw & _ & Habsent).
    exists mc, mw. split; [exact Hc|]. split; [exact Hw|].
    apply Habsent. intros x w y Hw' E.
    apply Forall2_length in Hw'. apply (f_equal (@List.length _)) in E.
    rewrite !length_app, <- Hw' in E. cbn in E. lia.
Defined.

(** C4.  When the feature flag is false or absent, both revisions return
    the content as it is. *)
Theorem disabled_identity (c : jsstring) :
  let off :=
    {| content := c; viewSettings := {| gradientEnabled := Some false |} |} in
  let absent :=
    {| content := c; viewSettings := {| gradientEnabled := None |} |} in
  ClassesOnly.transform off = c /\ ClassesOnly.transform absent = c
  /\ Wrapper.transform off = c /\ Wrapper.transform absent = c.
Proof. repeat split. Qed.

(** C5, the claim as it stands, fails: after two runs a paragraph need not
    have exactly one clip wrapper.  A paragraph that came with two clip
    spans in its body is wrapped in neither run and keeps the two.  And the
    guard looks for text: it finds its marker in the class [my-g-clip-2],
    so that the second paragraph below is wrapped in neither run either and
    has no clip wrapper at all. *)
Lemma no_double_wrap_counterexample :
  Wrapper.transform
    (on (Wrapper.transform
           (on (js "<p><span class=" ++ quoted (js "g-clip g-l0")
                ++ js ">a</span><span class=" ++ quoted (js "g-clip g-l1")
                ++ js ">b</span></p>"))))
  = js "<p class=" ++ quoted (js "g-line g-line") ++ js "><span class="
    ++ quoted (js "g-clip g-l0") ++ js ">a</span><span class="
    ++ quoted (js "g-clip g-l1") ++ js ">b</span></p>"
  /\ Wrapper.transform (on (js "<p><span class='my-g-clip-2'>x</span></p>"))
     = js "<p class=" ++ quoted (js "g-line")
       ++ js "><span class='my-g-clip-2'>x</span></p>"
  /\ Wrapper.transform
       (on (Wrapper.transform
              (on (js "<p><span class='my-g-clip-2'>x</span></p>"))))
     = js "<p class=" ++ quoted (js "g-line g-line")
       ++ js "><span class='my-g-clip-2'>x</span></p>".
Proof. repeat split; vm_compute; reflexivity. Qed.

(** C5, amended.  Take the [k]-th match [m] of a content.  Both runs of the
    wrapper revision find as many paragraphs as the content has matches.
    After the first run the body of the [k]-th paragraph is the body of [m]
    in one wrapper span, when the body of [m] does not carry the clip
    marker, and the body of [m] as it is, without a wrapper, when it does;
    in both cases it carries the clip marker.  The second run leaves this
    body exactly as it is: no wrapper is added to it or nested in it. *)
Theorem no_double_wrap_amended (c : jsstring) (k : nat) (m : pmatch) :
  let once := Wrapper.transform (on c) in
  let twice := Wrapper.transform (on once) in
  nth_error (blocks c) k = Some m ->
  exists m1 m2,
    nth_error (blocks once) k = Some m1
    /\ nth_error (blocks twice) k = Some m2
    /\ List.length (blocks once) = List.length (blocks c)
    /\ List.length (blocks twice) = List.length (blocks c)
    /\ (~ carries_clip_marker (inner m) ->
        inner m1 = js "<span class="
                   ++ quoted (js "g-clip g-l" ++ [48 + N.of_nat (k mod 4)])
                   ++ js ">" ++ inner m ++ js "</span>")
    /\ (carries_clip_marker (inner m) -> inner m1 = inner m)
    /\ carries_clip_marker (inner m1)
    /\ inner m2 = inner m1.
Proof.
  intros once twice H. subst once twice.
  destruct (rebuilt_blocks c k m H) as [_ H1].
  destruct (rebuilt_blocks _ k _ H1) as [_ H2].
  eexists _, _. split; [exact H1|]. split; [exact H2|].
  split; [apply wrapper_blocks_length|].
  split; [now rewrite !wrapper_blocks_length|].
  cbn [rebuilt block inner].
  split; [apply (wrapper_inner_cases k (inner m))|].
  split; [apply (wrapper_inner_cases k (inner m))|].
  split; [apply hasClip_iff, wrapper_inner_hasClip|].
  apply wrapper_inner_idem.
Qed.

(** One paragraph, run twice: one wrapper. *)
Lemma no_double_wrap_amended_witness :
  exists m1 m2,
    nth_error (blocks (Wrapper.transform (on (js "<p>x</p>")))) 0 = Some m1
    /\ nth_error
         (blocks (Wrapper.transform
                    (on (Wrapper.transform (on (js "<p>x</p>")))))) 0
       = Some m2
    /\ inner m1 = js "<span class=" ++ quoted (js "g-clip g-l0")
                  ++ js ">x</span>"
    /\ inner m2 = inner m1.
Proof.
  destruct (no_double_wrap_amended (js "<p>x</p>") 0
              (block 112 [] (js "x") 112) eq_refl)
    as (m1 & m2 & H1 & H2 & _ & _ & Hwrap & _ & _ & Hsame).
  exists m1, m2. split; [exact H1|]. split; [exact H2|].
  split; [|exact Hsame].
  apply Hwrap. intros Hm. apply hasClip_iff in Hm. discriminate Hm.
Defined.

Lemma callback_count_classes n s :
  snd (replace_p ClassesOnly.callback n s)
  = (n + List.length (blocks s))%nat.
Proof.
  rewrite (replace_p_ext _ _ classes_callback_shaped).
  apply replace_count.
Qed.

Lemma callback_count_wrapper n s :
  snd (replace_p Wrapper.callback n s) = (n + List.length (blocks s))%nat.
Proof.
  rewrite (replace_p_ext _ _ wrapper_callback_shaped).
  apply replace_count.
Qed.

(** C6.  Two calls on the same content and the same settings return the
    same string, in whatever stores they run: what earlier calls left in the
    store has no part in the result.  The result is that of [transform]
    read as a function of its argument alone.  A call leaves every cell it
    found as it was; with the flag on it adds one cell, its counter, which
    started at 0 and ends at the number of matches.  So a session of calls,
    from any store, returns call by call what each call returns alone. *)
Theorem deterministic_across_calls
    (store store' : list nat) (ctx ctx' : TransformContext) :
  content ctx = content ctx' -> viewSettings ctx = viewSettings ctx' ->
  (fst (transform_in ClassesOnly.callback ctx store)
   = fst (transform_in ClassesOnly.callback ctx' store')
   /\ fst (transform_in Wrapper.callback ctx store)
      = fst (transform_in Wrapper.callback ctx' store'))
  /\ (fst (transform_in ClassesOnly.callback ctx store)
      = ClassesOnly.transform ctx
      /\ fst (transform_in Wrapper.callback ctx store)
         = Wrapper.transform ctx)
  /\ (firstn (List.length store)
        (snd (transform_in ClassesOnly.callback ctx store)) = store
      /\ firstn (List.length store)
           (snd (transform_in Wrapper.callback ctx store)) = store)
  /\ (forall c,
        transform_in ClassesOnly.callback (on c) store
        = (fst (replace_p ClassesOnly.callback 0%nat c),
           store ++ [List.length (blocks c)])
        /\ transform_in Wrapper.callback (on c) store
           = (fst (replace_p Wrapper.callback 0%nat c),
              store ++ [List.length (blocks c)]))
  /\ (forall calls,
        fst (session_in ClassesOnly.callback calls store)
        = map ClassesOnly.transform calls
        /\ fst (session_in Wrapper.callback calls store)
           = map Wrapper.transform calls).
Proof.
  intros Hc Hv.
  assert (E : ctx' = ctx) by (destruct ctx, ctx'; cbn in *; congruence).
  subst ctx'.
  assert (Pc : forall x st, fst (transform_in ClassesOnly.callback x st)
                            = ClassesOnly.transform x).
  { intros x st. rewrite transform_in_eq. unfold ClassesOnly.transform.
    now destruct (flag_off (viewSettings x)). }
  assert (Pw : forall x st, fst (transform_in Wrapper.callback x st)
                            = Wrapper.transform x).
  { intros x st. rewrite transform_in_eq. unfold Wrapper.transform.
    now destruct (flag_off (viewSettings x)). }
  split; [now rewrite !Pc, !Pw|]. split; [now rewrite Pc, Pw|].
  split; [split; apply transform_in_frame|]. split.
  - intros c. rewrite !transform_in_eq. unfold on, flag_off.
    cbn [viewSettings gradientEnabled content].
    now rewrite callback_count_classes, callback_count_wrapper.
  - intros calls. rewrite !session_in_outputs. split; apply map_ext;
      intros x; [apply Pc | apply Pw].
Qed.

(** A call after calls that left the counters 7 and 3, and a first call. *)
Lemma deterministic_across_calls_witness :
  (fst (transform_in ClassesOnly.callback (on (js "<p>a</p>"))
          [7%nat; 3%nat])
   = fst (transform_in ClassesOnly.callback (on (js "<p>a</p>")) [])
   /\ fst (transform_in Wrapper.callback (on (js "<p>a</p>"))
             [7%nat; 3%nat])
      = fst (transform_in Wrapper.callback (on (js "<p>a</p>")) []))
  /\ snd (transform_in Wrapper.callback (on (js "<p>a</p>"))
            [7%nat; 3%nat])
     = [7%nat; 3%nat; 1%nat].
Proof.
  pose proof (deterministic_across_calls [7%nat; 3%nat] []
                (on (js "<p>a</p>")) (on (js "<p>a</p>"))
                eq_refl eq_refl) as H.
  split; [exact (proj1 H)|].
  exact (f_equal snd
           (proj2 (proj1 (proj2 (proj2 (proj2 H))) (js "<p>a</p>")))).
Defined.

(** C7.  With the flag on, the output is the content with each match
    replaced in place.  Cut the content at its matches: the output is, piece
    by piece, every code unit outside the matches as it is, and for the
    [k]-th match the paragraph the callback returns for it.  Scanning the
    output finds these same pieces: its matches are the new paragraphs, and
    between them stand the code units that stood between the matches of the
    content, each in its place.  When the scan finds no match, the output is
    the content. *)
Theorem outside_passes_through (c : jsstring) :
  flat_map text (scan c) = c
  /\ ClassesOnly.transform (on c)
     = flat_map text (relabel classes_attrs classes_inner 0 (scan c))
  /\ Wrapper.transform (on c)
     = flat_map text (relabel wrapper_attrs wrapper_inner 0 (scan c))
  /\ scan (ClassesOnly.transform (on c))
     = relabel classes_attrs classes_inner 0 (scan c)
  /\ scan (Wrapper.transform (on c))
     = relabel wrapper_attrs wrapper_inner 0 (scan c)
  /\ map outside (scan (ClassesOnly.transform (on c))) = map outside (scan c)
  /\ map outside (scan (Wrapper.transform (on c))) = map outside (scan c)
  /\ (blocks c = [] ->
      ClassesOnly.transform (on c) = c /\ Wrapper.transform (on c) = c).
Proof.
  pose proof classes_attrs_no_gt as Hca.
  pose proof classes_inner_no_close as Hci.
  pose proof wrapper_attrs_no_gt as Hwa.
  pose proof wrapper_inner_no_close as Hwi.
  rewrite classes_transform_on, wrapper_transform_on.
  rewrite !scan_replace by assumption. rewrite !map_outside_relabel.
  split; [apply scan_text|].
  split; [apply replace_text|]. split; [apply replace_text|].
  do 4 (split; [reflexivity|]).
  intros H. rewrite !replace_text, !relabel_lits by exact H.
  now rewrite scan_text.
Qed.

Lemma outside_passes_through_witness :
  ClassesOnly.transform (on (js "<div>no <b>paragraph</b> here</div><p"))
  = js "<div>no <b>paragraph</b> here</div><p"
  /\ Wrapper.transform (on (js "<div>no <b>paragraph</b> here</div><p"))
     = js "<div>no <b>paragraph</b> here</div><p".
Proof.
  exact (proj2 (proj2 (proj2 (proj2 (proj2 (proj2 (proj2
           (outside_passes_through
              (js "<div>no <b>paragraph</b> here</div><p"))))))))
           eq_refl).
Defined.

(** C8.  With the flag on, the scan reads the content from the left.  Where
    the text is a paragraph as the pattern reads one (an opening tag with
    its tag text, up to the first [>], a body, up to the first closing tag,
    and that closing tag), the paragraph is one match and the scan goes on
    after its closing tag: an opening tag inside the span of the match, and
    the paragraph it would start, is not counted.  Where it is not, the code
    unit is passed over and the scan goes on after it.  So the matches and
    the code units between them are the content, cut in pieces in the order
    of the text: matches do not overlap and none lies inside another.  Every
    match is such a paragraph, and the counter goes up by one per match. *)
Theorem scan_outermost_matches (c : jsstring) :
  (forall m r,
      paragraph_text m -> c = whole m ++ r ->
      scan c = Blk m :: scan r /\ blocks c = m :: blocks r)
  /\ (forall x s,
        c = x :: s ->
        (forall m r, paragraph_text m -> c <> whole m ++ r) ->
        scan c = Lit x :: scan s /\ blocks c = blocks s)
  /\ (c = [] -> scan c = [])
  /\ flat_map text (scan c) = c
  /\ (forall m, In m (blocks c) -> paragraph_text m)
  /\ snd (replace_p ClassesOnly.callback 0%nat c) = List.length (blocks c)
  /\ snd (replace_p Wrapper.callback 0%nat c) = List.length (blocks c).
Proof.
  split; [|split; [|split; [|split; [|split; [|split]]]]].
  - intros m r Hm E.
    assert (H : match_p c = Some (m, r)) by (apply match_p_iff; auto).
    unfold blocks. now rewrite (scan_match _ _ _ H).
  - intros x s -> Hnone. apply match_p_none_iff in Hnone.
    unfold blocks. now rewrite (scan_skip _ _ Hnone).
  - now intros ->.
  - apply scan_text.
  - intros m H. apply well_formed_iff, (scan_well_formed c).
    unfold blocks in H.
    induction (scan c) as [|[x|m'] segs IH]; cbn in *.
    + contradiction.
    + right. auto.
    + destruct H as [->|H]; [now left | right; auto].
  - apply callback_count_classes.
  - apply callback_count_wrapper.
Qed.

(** In [<p>a<p>b</p>c</p>] the match runs from the first opening tag to the
    first closing tag; the paragraph [<p>b</p>] inside that span is not a
    match of its own, and the scan goes on in [c</p>]. *)
Lemma scan_outermost_matches_witness :
  scan (js "<p>a<p>b</p>c</p>")
  = Blk (block 112 [] (js "a<p>b") 112) :: scan (js "c</p>")
  /\ blocks (js "<p>a<p>b</p>c</p>")
     = block 112 [] (js "a<p>b") 112 :: blocks (js "c</p>").
Proof.
  apply (proj1 (scan_outermost_matches (js "<p>a<p>b</p>c</p>"))
           (block 112 [] (js "a<p>b") 112) (js "c</p>")).
  - apply well_formed_iff. exists 112, 112.
    split; [reflexivity|]. split; [reflexivity|].
    split; [reflexivity|]. split; reflexivity.
  - reflexivity.
Defined.

(** C9.  In the wrapper revision a paragraph whose body [i] already carries
    the clip marker is not wrapped, and it takes one step of the counter all
    the same: what follows it is transformed from [S n], exactly as it is
    after a paragraph with any other body [i'], wrapped or not. *)
Theorem clipped_block_still_counts
    (n : nat) (p q : code_unit) (a i i' r : jsstring) :
  is_p p = true -> is_p q = true -> no_gt a ->
  has_close i = false -> has_close i' = false ->
  hasClip i = true ->
  let tail := replace_p Wrapper.callback (S n) r in
  replace_p Wrapper.callback n (whole (block p a i q) ++ r)
  = (js "<p" ++ add_class (js "g-line") a ++ js ">" ++ i ++ js "</p>"
     ++ fst tail, snd tail)
  /\ replace_p Wrapper.callback n (whole (block p a i' q) ++ r)
     = (fst (Wrapper.callback n a i') ++ fst tail, snd tail)
  /\ snd (Wrapper.callback n a i) = S n
  /\ snd (Wrapper.callback n a i') = S n.
Proof.
  intros Hp Hq Ha Hi Hi' Hclip tail. subst tail.
  rewrite (replace_p_match _ _ _ _ _ (match_p_complete p a i q r Hp Hq Ha Hi)).
  rewrite (replace_p_match _ _ _ _ _
             (match_p_complete p a i' q r Hp Hq Ha Hi')).
  cbn [block attrs inner].
  assert (Hs : forall b, snd (Wrapper.callback n a b) = S n)
    by (intros b; unfold Wrapper.callback; cbn [snd]; lia).
  repeat split; try apply Hs.
  - destruct (Wrapper.callback n a i) as [out st] eqn:E.
    pose proof (Hs i) as Hsi. rewrite E in Hsi. cbn in Hsi. subst st.
    destruct (replace_p Wrapper.callback (S n) r) as [tl st].
    cbn [fst snd]. f_equal.
    unfold Wrapper.callback in E. rewrite Hclip in E.
    inversion E. now norm_app.
  - destruct (Wrapper.callback n a i') as [out st] eqn:E.
    pose proof (Hs i') as Hsi. rewrite E in Hsi. cbn in Hsi. subst st.
    now destruct (replace_p Wrapper.callback (S n) r) as [tl st].
Qed.

Lemma clipped_block_still_counts_witness :
  let clipped := js "<span class=" ++ quoted (js "g-clip g-l0")
                 ++ js ">x</span>" in
  let tail := replace_p Wrapper.callback 1%nat (js "<p>y</p>") in
  replace_p Wrapper.callback 0%nat
    (whole (block 112 [] clipped 112) ++ js "<p>y</p>")
  = (js "<p" ++ add_class (js "g-line") [] ++ js ">" ++ clipped ++ js "</p>"
     ++ fst tail, snd tail)
  /\ replace_p Wrapper.callback 0%nat
       (whole (block 112 [] (js "x") 112) ++ js "<p>y</p>")
     = (fst (Wrapper.callback 0%nat [] (js "x")) ++ fst tail, snd tail)
  /\ snd (Wrapper.callback 0%nat [] clipped) = 1%nat
  /\ snd (Wrapper.callback 0%nat [] (js "x")) = 1%nat.
Proof.
  exact (clipped_block_still_counts 0 112 112 []
           (js "<span class=" ++ quoted (js "g-clip g-l0") ++ js ">x</span>")
           (js "x") (js "<p>y</p>")
           eq_refl eq_refl eq_refl eq_refl eq_refl eq_refl).
Defined.

(** The class pattern does not match at a class attribute whose value
    starts with a single quote. *)
Lemma class_at_single_quote kw t :
  class_keyword kw -> class_at (kw ++ 39 :: t) = None.
Proof.
  intros Hkw. destruct (class_at (kw ++ 39 :: t)) as [[cl a]|] eqn:E;
    [|reflexivity].
  apply class_at_sound in E as (kw' & Hkw' & E & _).
  unfold class_keyword in *.
  change (js "class=") with [99; 108; 97; 115; 115; 61] in *.
  inv_Forall2. unfold quoted, dq in E. cbn in E. inversion E.
Qed.

(** C10, the claim as it stands, fails.  Next to a class attribute in single
    quotes, text of the form [class=] and a value in double quotes elsewhere
    in the tag, here inside [data-class], is taken for the class attribute:
    the tokens go into it, and no second class attribute is made. *)
Lemma single_quoted_class_counterexample :
  ClassesOnly.transform
    (on (js "<p class='foo' data-class=" ++ quoted (js "bar") ++ js ">x</p>"))
  = js "<p class='foo' data-class=" ++ quoted (js "bar g-line g-l0")
    ++ js ">x</p>"
  /\ ClassesOnly.transform
       (on (js "<p class='foo' data-class=" ++ quoted (js "bar")
            ++ js ">x</p>"))
     <> js "<p class='foo' data-class=" ++ quoted (js "bar")
        ++ js " class=" ++ quoted (js "g-line g-l0") ++ js ">x</p>"
  /\ Wrapper.transform
       (on (js "<p class='foo' data-class=" ++ quoted (js "bar")
            ++ js ">x</p>"))
     = js "<p class='foo' data-class=" ++ quoted (js "bar g-line")
       ++ js "><span class=" ++ quoted (js "g-clip g-l0")
       ++ js ">x</span></p>".
Proof.
  split; [vm_compute; reflexivity|]. split; [|vm_compute; reflexivity].
  vm_compute. discriminate.
Qed.

(** C10, amended.  Take the [k]-th match of the content, with a class
    attribute written with single quotes in its tag text, and no text in
    the tag that the class pattern matches (no [class=] followed by a value
    in double quotes, inside another attribute for instance).  The class
    pattern does not match at the attribute, and both revisions append a
    second class attribute, in double quotes, with the new tokens only
    ([g-line g-l(k mod 4)] in the classes-only revision, [g-line] in the
    wrapper revision); the tag text of the content, with its single-quoted
    attribute, is kept in front of it. *)
Theorem single_quoted_class_amended
    (c : jsstring) (k : nat) (m : pmatch)
    (before kw value after : jsstring) :
  nth_error (blocks c) k = Some m ->
  class_keyword kw ->
  attrs m = before ++ kw ++ [39] ++ value ++ [39] ++ after ->
  class_match (attrs m) = None ->
  class_at (kw ++ [39] ++ value ++ [39] ++ after) = None
  /\ classRegex_test (attrs m) = false
  /\ exists mc mw,
       nth_error (blocks (ClassesOnly.transform (on c))) k = Some mc
       /\ nth_error (blocks (Wrapper.transform (on c))) k = Some mw
       /\ attrs mc = before ++ kw ++ [39] ++ value ++ [39] ++ after
                     ++ js " class="
                     ++ quoted (js "g-line g-l" ++ [48 + N.of_nat (k mod 4)])
       /\ attrs mw = before ++ kw ++ [39] ++ value ++ [39] ++ after
                     ++ js " class=" ++ quoted (js "g-line").
Proof.
  intros H Hkw Ha Hnone. split; [now apply class_at_single_quote|].
  split; [unfold classRegex_test; now rewrite Hnone|].
  destruct (rebuilt_attrs c k m H) as (mc & mw & Hc & Hw & Ec & Ew).
  exists mc, mw. split; [exact Hc|]. split; [exact Hw|].
  rewrite Ec, Ew. unfold add_class. rewrite Hnone, Ha. now norm_app.
Qed.

Lemma single_quoted_class_amended_witness :
  class_at (js "class=" ++ [39] ++ js "foo" ++ [39] ++ js " id='a'") = None
  /\ classRegex_test (js " class='foo' id='a'") = false
  /\ exists mc mw,
       nth_error
         (blocks (ClassesOnly.transform
                    (on (js "<p class='foo' id='a'>x</p>")))) 0 = Some mc
       /\ nth_error
            (blocks (Wrapper.transform
                       (on (js "<p class='foo' id='a'>x</p>")))) 0 = Some mw
       /\ attrs mc = js " " ++ js "class=" ++ [39] ++ js "foo" ++ [39]
                     ++ js " id='a'" ++ js " class="
                     ++ quoted (js "g-line g-l" ++ [48 + N.of_nat (0 mod 4)])
       /\ attrs mw = js " " ++ js "class=" ++ [39] ++ js "foo" ++ [39]
                     ++ js " id='a'" ++ js " class=" ++ quoted (js "g-line").
Proof.
  apply (single_quoted_class_amended
           (js "<p class='foo' id='a'>x</p>") 0
           (block 112 (js " class='foo' id='a'") (js "x") 112)
           (js " ") (js "class=") (js "foo") (js " id='a'")).
  - reflexivity.
  - unfold class_keyword. repeat constructor.
  - reflexivity.
  - reflexivity.
Defined.

(** * Further properties of the transformer *)

Lemma has_close_tail_matchable s :
  has_close s = false -> tail_matchable s = false.
Proof.
  intros H. unfold tail_matchable.
  destruct (split_at is_gt s) as [[a t2]|] eqn:E; [|reflexivity].
  apply split_at_sound in E as (g & _ & -> & _).
  destruct (has_close t2) eqn:E2; [|reflexivity].
  pose proof (has_close_app_r (a ++ [g]) t2 E2) as H'.
  rewrite <- app_assoc in H'. cbn [app] in H'. congruence.
Qed.

(** Content without a closing paragraph tag has no match, whatever opening
    tags it has: with the flag on, both revisions return it as it is. *)
Theorem unterminated_untouched (c : jsstring) :
  has_close c = false ->
  ClassesOnly.transform (on c) = c /\ Wrapper.transform (on c) = c.
Proof.
  intros H. apply has_close_tail_matchable in H.
  rewrite classes_transform_on, wrapper_transform_on.
  now rewrite !replace_unmatchable.
Qed.

Lemma unterminated_untouched_witness :
  ClassesOnly.transform (on (js "<p class='a'>never closed<p>nor this"))
  = js "<p class='a'>never closed<p>nor this"
  /\ Wrapper.transform (on (js "<p class='a'>never closed<p>nor this"))
     = js "<p class='a'>never closed<p>nor this".
Proof.
  exact (unterminated_untouched (js "<p class='a'>never closed<p>nor this")
           eq_refl).
Defined.

Lemma blocks_replace_all fa fi s :
  (forall n a, no_gt a -> no_gt (fa n a)) ->
  (forall n i, has_close i = false -> has_close (fi n i) = false) ->
  blocks (fst (replace_p (shaped fa fi) 0%nat s))
  = map (fun km => rebuilt fa fi (fst km) (snd km))
      (combine (seq 0 (List.length (blocks s))) (blocks s)).
Proof.
  intros Ha Hi. unfold blocks. rewrite scan_replace by assumption.
  apply matches_relabel.
Qed.

Lemma rebuilt_lower fa fi k m :
  whole (rebuilt fa fi k m)
  = js "<p" ++ attrs (rebuilt fa fi k m) ++ js ">"
    ++ inner (rebuilt fa fi k m) ++ js "</p>".
Proof. reflexivity. Qed.

(** With the flag on, the output has as many matches as the content, and
    every match of the output is written with the lower-case tags [<p] and
    [</p>], whatever the case of the tags in the content. *)
Theorem paragraphs_kept_lower_case (c : jsstring) :
  let lower m :=
    whole m = js "<p" ++ attrs m ++ js ">" ++ inner m ++ js "</p>" in
  (List.length (blocks (ClassesOnly.transform (on c)))
   = List.length (blocks c)
   /\ Forall lower (blocks (ClassesOnly.transform (on c))))
  /\ (List.length (blocks (Wrapper.transform (on c)))
      = List.length (blocks c)
      /\ Forall lower (blocks (Wrapper.transform (on c)))).
Proof.
  intros lower. subst lower.
  rewrite classes_transform_on, wrapper_transform_on.
  rewrite !blocks_replace_all
    by auto using classes_attrs_no_gt, classes_inner_no_close,
                  wrapper_attrs_no_gt, wrapper_inner_no_close.
  rewrite !length_map, !length_combine, !length_seq, !Nat.min_id.
  repeat split; apply Forall_forall; intros m' Hin;
    apply in_map_iff in Hin as ([k m] & <- & _); apply rebuilt_lower.
Qed.

(** An empty paragraph gets its classes and takes its step of the counter
    like any other one. *)
Theorem empty_paragraph_counts (n : nat) (r : jsstring) :
  let shade := js "g-l" ++ number_to_string (n mod 4)%nat in
  replace_p ClassesOnly.callback n (js "<p></p>" ++ r)
  = (js "<p class=" ++ quoted (js "g-line " ++ shade) ++ js "></p>"
     ++ fst (replace_p ClassesOnly.callback (S n) r),
     snd (replace_p ClassesOnly.callback (S n) r))
  /\ replace_p Wrapper.callback n (js "<p></p>" ++ r)
     = (js "<p class=" ++ quoted (js "g-line") ++ js "><span class="
        ++ quoted (js "g-clip " ++ shade) ++ js "></span></p>"
        ++ fst (replace_p Wrapper.callback (S n) r),
        snd (replace_p Wrapper.callback (S n) r)).
Proof.
  intros shade. subst shade.
  assert (E : match_p (js "<p></p>" ++ r) = Some (block 112 [] [] 112, r))
    by (apply (match_p_complete 112 [] [] 112 r); reflexivity).
  rewrite !(replace_p_match _ _ _ _ _ E).
  cbn [block attrs inner]. split.
  - rewrite classes_callback_shaped. unfold shaped, classes_attrs,
      classes_inner.
    destruct (replace_p ClassesOnly.callback (S n) r) as [tl st].
    cbn [fst snd]. f_equal. unfold add_class, quoted. cbn [class_match].
    change (class_at []) with (@None (list N * list N)). cbn iota.
    now norm_app.
  - rewrite wrapper_callback_shaped. unfold shaped, wrapper_attrs,
      wrapper_inner, wrap.
    destruct (replace_p Wrapper.callback (S n) r) as [tl st].
    cbn [fst snd]. f_equal. change (hasClip []) with false. cbn iota.
    unfold add_class, quoted. cbn [class_match].
    change (class_at []) with (@None (list N * list N)). cbn iota.
    now norm_app.
Qed.

(** The class pattern reads seven code units, none of them a space: it does
    not match at a place where a space comes before any double quote. *)
Lemma class_at_window u t :
  existsb is_dq u = false -> class_at (u ++ 32 :: t) = None.
Proof.
  intros Hu. destruct (class_at (u ++ 32 :: t)) as [[cl af]|] eqn:E;
    [|reflexivity].
  apply class_at_sound in E as (kw & Hkw & E & _).
  unfold class_keyword in Hkw.
  change (js "class=") with [99; 108; 97; 115; 115; 61] in Hkw.
  inv_Forall2. unfold quoted in E. cbn [app] in E.
  destruct u as [|a1 [|a2 [|a3 [|a4 [|a5 [|a6 [|a7 u]]]]]]];
    cbn [app] in E; inversion E; subst; try discriminate.
  cbn [existsb] in Hu. change (is_dq dq) with true in Hu.
  cbn [orb] in Hu. rewrite !orb_true_r in Hu. discriminate.
Qed.

Lemma class_match_appended a extra :
  existsb is_dq a = false -> existsb is_dq extra = false ->
  class_match (a ++ js " class=" ++ quoted extra)
  = Some (a ++ js " ", extra, []).
Proof.
  intros Ha He. induction a as [|x a IH].
  - change (js " class=" ++ quoted extra)
      with ((@nil N) ++ 32 :: js "class=" ++ quoted extra).
    cbn [app]. rewrite class_match_later
      by (apply (class_at_window [] _ eq_refl)).
    rewrite (class_match_here _ extra []); [reflexivity|].
    rewrite <- (app_nil_r (quoted extra)).
    apply class_at_complete; [|exact He].
    unfold class_keyword. repeat constructor.
  - cbn in Ha. apply orb_false_iff in Ha as [Hx Ha].
    cbn [app]. rewrite class_match_later.
    + now rewrite (IH Ha).
    + change (x :: a ++ js " class=" ++ quoted extra)
        with ((x :: a) ++ 32 :: js "class=" ++ quoted extra).
      apply class_at_window. cbn. now rewrite Hx, Ha.
Qed.

(** Adding the same tokens twice to a tag text without double quotes. *)
Lemma add_class_twice extra a :
  existsb is_dq a = false -> existsb is_dq extra = false ->
  add_class extra (add_class extra a)
  = a ++ js " class=" ++ quoted (extra ++ js " " ++ extra).
Proof.
  intros Ha He. unfold add_class at 2.
  rewrite (class_match_no_dq a Ha). unfold add_class.
  rewrite (class_match_appended a extra Ha He). norm_app.
  now rewrite app_nil_r.
Qed.

(** Neither revision is idempotent on the class attribute: run twice, each
    adds its tokens twice.  For the [k]-th match of a content whose tag text
    has no double quote, the tag text after two runs ends in one class
    attribute with the tokens of the revision repeated. *)
Theorem tokens_repeat_on_second_run (c : jsstring) (k : nat) (m : pmatch) :
  nth_error (blocks c) k = Some m ->
  existsb is_dq (attrs m) = false ->
  let tokens := js "g-line g-l" ++ [48 + N.of_nat (k mod 4)] in
  exists mc mw,
    nth_error
      (blocks (ClassesOnly.transform (on (ClassesOnly.transform (on c))))) k
    = Some mc
    /\ attrs mc
       = attrs m ++ js " class=" ++ quoted (tokens ++ js " " ++ tokens)
    /\ nth_error
         (blocks (Wrapper.transform (on (Wrapper.transform (on c))))) k
       = Some mw
    /\ attrs mw = attrs m ++ js " class=" ++ quoted (js "g-line g-line").
Proof.
  intros H Hdq tokens.
  pose proof classes_attrs_no_gt as Ca.
  pose proof classes_inner_no_close as Ci.
  pose proof wrapper_attrs_no_gt as Wa.
  pose proof wrapper_inner_no_close as Wi.
  exists (rebuilt classes_attrs classes_inner k
            (rebuilt classes_attrs classes_inner k m)),
         (rebuilt wrapper_attrs wrapper_inner k
            (rebuilt wrapper_attrs wrapper_inner k m)).
  repeat split.
  - rewrite (classes_transform_on (ClassesOnly.transform (on c))).
    rewrite blocks_replace by assumption.
    rewrite classes_transform_on, blocks_replace, H by assumption.
    reflexivity.
  - cbn [rebuilt block attrs]. unfold classes_attrs.
    rewrite shade_digit. fold tokens.
    apply add_class_twice; [exact Hdq|].
    subst tokens. rewrite existsb_app.
    change (existsb is_dq (js "g-line g-l")) with false.
    cbn [existsb orb]. rewrite orb_false_r.
    apply N.eqb_neq. unfold dq. lia.
  - rewrite (wrapper_transform_on (Wrapper.transform (on c))).
    rewrite blocks_replace by assumption.
    rewrite wrapper_transform_on, blocks_replace, H by assumption.
    reflexivity.
  - cbn [rebuilt block attrs]. unfold wrapper_attrs.
    now rewrite add_class_twice.
Qed.

Lemma tokens_repeat_on_second_run_witness :
  exists mc mw,
    nth_error
      (blocks (ClassesOnly.transform
                 (on (ClassesOnly.transform
                        (on (js "<p>a</p><p id='x'>b</p>")))))) 1
    = Some mc
    /\ attrs mc
       = js " id='x'" ++ js " class="
         ++ quoted (js "g-line g-l1" ++ js " " ++ js "g-line g-l1")
    /\ nth_error
         (blocks (Wrapper.transform
                    (on (Wrapper.transform
                           (on (js "<p>a</p><p id='x'>b</p>")))))) 1
       = Some mw
    /\ attrs mw = js " id='x'" ++ js " class="
                  ++ quoted (js "g-line g-line").
Proof.
  exact (tokens_repeat_on_second_run (js "<p>a</p><p id='x'>b</p>") 1
           (block 112 (js " id='x'") (js "b") 112) eq_refl eq_refl).
Defined.

Lemma starts_close_fourth c1 c2 c3 c4 s :
  c4 <> 62 -> starts_close (c1 :: c2 :: c3 :: c4 :: s) = None.
Proof.
  intros Hc. destruct (starts_close (c1 :: c2 :: c3 :: c4 :: s))
    as [[cl r]|] eqn:E; [|reflexivity].
  apply starts_close_iff in E as (q & _ & _ & E). inversion E. congruence.
Qed.

(** The paragraph pattern asks for no delimiter after [<p]: a [pre] element
    is taken for the start of a paragraph, with [re] as its attribute text,
    and the match runs to the closing tag of the next real paragraph.  In
    the classes-only revision the [pre] element gets the classes, and the
    paragraph inside the match gets none. *)
Theorem pre_taken_for_paragraph (code text rest : jsstring) :
  has_close code = false -> has_close text = false ->
  blocks (js "<pre>" ++ code ++ js "</pre><p>" ++ text ++ js "</p>" ++ rest)
  = block 112 (js "re") (code ++ js "</pre><p>" ++ text) 112 :: blocks rest
  /\ ClassesOnly.transform
       (on (js "<pre>" ++ code ++ js "</pre><p>" ++ text ++ js "</p>"
            ++ rest))
     = js "<pre class=" ++ quoted (js "g-line g-l0") ++ js ">" ++ code
       ++ js "</pre><p>" ++ text ++ js "</p>"
       ++ fst (replace_p ClassesOnly.callback 1%nat rest).
Proof.
  intros Hcode Htext.
  assert (Hi : has_close (code ++ js "</pre><p>" ++ text) = false).
  { change (js "</pre><p>" ++ text)
      with (60 :: 47 :: 112 :: 114 :: 101 :: 62 :: 60 :: 112 :: 62 :: text).
    rewrite has_close_app_lt by exact Hcode.
    rewrite has_close_step by (apply starts_close_fourth; discriminate).
    now skip_chars. }
  assert (E : match_p (js "<pre>" ++ code ++ js "</pre><p>" ++ text
                       ++ js "</p>" ++ rest)
              = Some (block 112 (js "re") (code ++ js "</pre><p>" ++ text)
                        112, rest)).
  { rewrite <- (match_p_complete 112 (js "re")
                  (code ++ js "</pre><p>" ++ text) 112 rest)
      by (reflexivity || exact Hi).
    f_equal. cbn [whole block]. now norm_app. }
  split.
  - unfold blocks. now rewrite (scan_match _ _ _ E).
  - unfold ClassesOnly.transform, on, flag_off.
    cbn [viewSettings gradientEnabled content].
    rewrite (replace_p_match _ _ _ _ _ E). cbn [block attrs inner].
    unfold ClassesOnly.callback at 1.
    change (0 + 1)%nat with 1%nat.
    destruct (replace_p ClassesOnly.callback 1%nat rest) as [tl st].
    cbn [fst].
    change (add_class (js "g-line g-l" ++ number_to_string (0 mod 4)%nat)
              (js "re"))
      with (js "re class=" ++ quoted (js "g-line g-l0")).
    now norm_app.
Qed.

Lemma pre_taken_for_paragraph_witness :
  blocks (js "<pre>" ++ js "x = 1" ++ js "</pre><p>" ++ js "text"
          ++ js "</p>" ++ js "<p>next</p>")
  = block 112 (js "re") (js "x = 1" ++ js "</pre><p>" ++ js "text") 112
    :: blocks (js "<p>next</p>")
  /\ ClassesOnly.transform
       (on (js "<pre>" ++ js "x = 1" ++ js "</pre><p>" ++ js "text"
            ++ js "</p>" ++ js "<p>next</p>"))
     = js "<pre class=" ++ quoted (js "g-line g-l0") ++ js ">" ++ js "x = 1"
       ++ js "</pre><p>" ++ js "text" ++ js "</p>"
       ++ fst (replace_p ClassesOnly.callback 1%nat (js "<p>next</p>")).
Proof.
  exact (pre_taken_for_paragraph (js "x = 1") (js "text") (js "<p>next</p>")
           eq_refl eq_refl).
Defined.

Lemma add_class_length extra a :
  (List.length a + 1 + List.length extra
   <= List.length (add_class extra a))%nat.
Proof.
  unfold add_class.
  destruct (class_match a) as [[[b cl] af]|] eqn:E.
  - apply class_match_sound in E as (kw & Hkw & -> & _).
    apply class_keyword_length in Hkw. unfold quoted.
    repeat (rewrite ?length_app; cbn [List.length]).
    change (List.length (js "class=")) with 6%nat.
    change (List.length (js " ")) with 1%nat. lia.
  - unfold quoted. repeat (rewrite ?length_app; cbn [List.length]). lia.
Qed.

Lemma whole_block_length p a i q :
  List.length (whole (block p a i q))
  = (List.length a + List.length i + 7)%nat.
Proof.
  cbn [whole block]. unfold open_tag, close_tag.
  repeat (rewrite ?length_app; cbn [List.length]).
  change (List.length (js ">")) with 1%nat. lia.
Qed.

Section Growth.

Variable fa : nat -> jsstring -> jsstring.
Variable fi : nat -> jsstring -> jsstring.
Variable gain : nat.
Hypothesis fa_gain :
  forall n a, (List.length a + gain <= List.length (fa n a))%nat.
Hypothesis fi_gain :
  forall n i, (List.length i <= List.length (fi n i))%nat.

Lemma replace_grows n s :
  (List.length s + gain * List.length (blocks s)
   <= List.length (fst (replace_p (shaped fa fi) n s)))%nat.
Proof.
  revert n. induction s as [|c s Hc IH|s m r Hm IH] using scan_ind; intros n.
  - cbn. lia.
  - rewrite (replace_p_skip _ _ _ _ Hc). specialize (IH n).
    unfold blocks in *. rewrite (scan_skip _ _ Hc).
    destruct (replace_p (shaped fa fi) n s) as [tl st].
    cbn [fst matches_of List.length] in *. lia.
  - rewrite (replace_p_match _ _ _ _ _ Hm). specialize (IH (S n)).
    unfold blocks in *. rewrite (scan_match _ _ _ Hm).
    unfold shaped at 1.
    destruct (replace_p (shaped fa fi) (S n) r) as [tl st].
    cbn [fst matches_of List.length] in *.
    apply match_p_sound in Hm as [-> (p & q & _ & _ & Hb & _)].
    rewrite Hb, !length_app, whole_block_length.
    change (List.length (js "<p")) with 2%nat.
    change (List.length (js ">")) with 1%nat.
    change (List.length (js "</p>")) with 4%nat.
    cbn [block attrs inner].
    pose proof (fa_gain n (attrs m)). pose proof (fi_gain n (inner m)).
    rewrite Nat.mul_succ_r. lia.
Qed.

End Growth.

(** With the flag on the output is never shorter than the content: it is
    longer by at least 12 code units for each match in the classes-only
    revision (a space and the two tokens), and by at least 7 in the wrapper
    revision (a space and the line marker). *)
Theorem output_grows (c : jsstring) :
  (List.length c + 12 * List.length (blocks c)
   <= List.length (ClassesOnly.transform (on c)))%nat
  /\ (List.length c + 7 * List.length (blocks c)
      <= List.length (Wrapper.transform (on c)))%nat.
Proof.
  rewrite classes_transform_on, wrapper_transform_on. split.
  - apply replace_grows.
    + intros n a. unfold classes_attrs.
      pose proof (add_class_length
                    (js "g-line g-l" ++ number_to_string (n mod 4)%nat) a)
        as H.
      rewrite shade_digit in H. rewrite shade_digit.
      rewrite length_app in H. cbn [List.length] in H.
      change (List.length (js "g-line g-l")) with 10%nat in H. lia.
    + intros n i. unfold classes_inner. lia.
  - apply replace_grows.
    + intros n a. unfold wrapper_attrs.
      pose proof (add_class_length (js "g-line") a) as H.
      change (List.length (js "g-line")) with 6%nat in H. lia.
    + intros n i. unfold wrapper_inner, wrap.
      destruct (hasClip i); [lia|].
      repeat (rewrite ?length_app; cbn [List.length]). lia.
Qed.

(** The guard against wrapping twice looks for text, not for an element of
    the transformer's own: a body with a [span] tag anywhere in it whose
    first attribute is a class value, in either kind of quotes, holding
    [g-clip] between characters that are not word characters (the quotes, a
    space, a hyphen: [my-g-clip-2] will do) passes for wrapped, and the
    wrapper revision leaves that body as it is. *)
Theorem marker_text_stops_wrapping
    (pre ws r1 r2 post : jsstring) (q1 q2 : code_unit)
    (n : nat) (a : jsstring) :
  ws <> [] -> forallb is_space ws = true ->
  is_quote q1 = true -> is_quote q2 = true ->
  existsb is_quote r1 = false -> existsb is_quote r2 = false ->
  is_word (last r1 q1) = false -> is_word (hd q2 r2) = false ->
  let body := pre ++ js "<span" ++ ws ++ js "class=" ++ q1 :: r1
              ++ js "g-clip" ++ r2 ++ q2 :: post in
  hasClip body = true
  /\ Wrapper.callback n a body
     = (js "<p" ++ add_class (js "g-line") a ++ js ">" ++ body ++ js "</p>",
        S n).
Proof.
  intros Hne Hws Hq1 Hq2 Hr1 Hr2 Hl Hh body.
  assert (H : hasClip body = true).
  { subst body. apply hasClip_app_l, hasClip_here. unfold clip_at.
    rewrite strip_same.
    change (js "class=" ++ q1 :: r1 ++ js "g-clip" ++ r2 ++ q2 :: post)
      with (99 :: (js "lass=" ++ q1 :: r1 ++ js "g-clip" ++ r2
                   ++ q2 :: post)).
    rewrite (span_of_app is_space ws 99 _ Hws eq_refl).
    destruct ws as [|w ws]; [congruence|].
    change (99 :: (js "lass=" ++ q1 :: r1 ++ js "g-clip" ++ r2
                   ++ q2 :: post))
      with (js "class=" ++ q1 :: r1 ++ js "g-clip" ++ r2 ++ q2 :: post).
    rewrite strip_same, Hq1. cbn [andb].
    replace (r1 ++ js "g-clip" ++ r2 ++ q2 :: post)
      with ((r1 ++ js "g-clip" ++ r2) ++ q2 :: post) by now norm_app.
    rewrite span_of_app.
    - apply clip_in_app; [exact Hl|]. destruct r2; [exact I | exact Hh].
    - apply forallb_not_quote. rewrite !existsb_app, Hr1, Hr2.
      reflexivity.
    - now rewrite Hq2. }
  split; [exact H|]. unfold Wrapper.callback. rewrite H.
  now rewrite Nat.add_1_r.
Qed.

Lemma marker_text_stops_wrapping_witness :
  let body := js "see " ++ js "<span" ++ js " " ++ js "class=" ++ 39
              :: js "note my-" ++ js "g-clip" ++ js "-2" ++ 39
              :: js ">x</span>" in
  hasClip body = true
  /\ Wrapper.callback 0 [] body
     = (js "<p" ++ add_class (js "g-line") [] ++ js ">" ++ body ++ js "</p>",
        1%nat).
Proof.
  apply (marker_text_stops_wrapping (js "see ") (js " ") (js "note my-")
           (js "-2") (js ">x</span>") 39 39 0 []);
    solve [reflexivity | discriminate].
Defined.

(** * Properties of the debugging utility *)

Lemma str_eqb_eq s t : str_eqb s t = true <-> s = t.
Proof.
  revert t. induction s as [|c s IH]; intros [|d t]; cbn;
    try (split; (reflexivity || discriminate)).
  rewrite andb_true_iff, N.eqb_eq, IH. split.
  - intros [-> ->]. reflexivity.
  - intros E. inversion E. auto.
Qed.

Lemma str_eqb_refl s : str_eqb s s = true.
Proof. now apply str_eqb_eq. Qed.

Lemma opt_str_eqb_eq s t : opt_str_eqb s t = true <-> s = t.
Proof.
  destruct s as [s|], t as [t|]; cbn;
    try (split; (reflexivity || discriminate)).
  rewrite str_eqb_eq. split; [now intros -> | intros E; now inversion E].
Qed.

Lemma trim_start_nil s : trim_start s = [] <-> forallb is_space s = true.
Proof.
  induction s as [|c s IH]; cbn; [tauto|].
  destruct (is_space c); cbn; [exact IH|]. split; discriminate.
Qed.

Lemma trim_start_keeps s :
  forallb is_space (trim_start s) = true -> forallb is_space s = true.
Proof.
  induction s as [|c s IH]; cbn; [trivial|].
  destruct (is_space c) eqn:E; cbn; [exact IH|].
  rewrite E. discriminate.
Qed.

Lemma forallb_reversed {A} (f : A -> bool) l :
  forallb f (rev l) = forallb f l.
Proof.
  induction l as [|x l IH]; [reflexivity|].
  cbn [rev forallb]. rewrite forallb_app, IH. cbn. rewrite andb_true_r.
  apply andb_comm.
Qed.

(** [trim] leaves something exactly when the string has a code unit that is
    not white space. *)
Lemma trim_nonempty s :
  (0 <? List.length (trim s))%nat = negb (forallb is_space s).
Proof.
  unfold trim.
  destruct (forallb is_space s) eqn:E.
  - apply trim_start_nil in E. now rewrite E.
  - cbn [negb]. apply Nat.ltb_lt. rewrite length_rev.
    destruct (trim_start (rev (trim_start s))) eqn:E2; [|cbn; lia].
    apply trim_start_nil in E2. rewrite forallb_reversed in E2.
    apply trim_start_keeps in E2. congruence.
Qed.

Lemma not_all_space t :
  negb (forallb is_space t) = existsb (fun c => negb (is_space c)) t.
Proof.
  induction t as [|c t IH]; [reflexivity|].
  cbn. rewrite negb_andb, IH. reflexivity.
Qed.

Lemma or_default_nil s : or_default s [] = s.
Proof. now destruct s. Qed.

Lemma or_default_nonempty s d : d <> [] -> or_default s d <> [].
Proof. destruct s; cbn; [trivial | discriminate]. Qed.

Lemma flat_map_all_nil {A B} (f : A -> list B) l :
  (forall x, In x l -> f x = []) -> flat_map f l = [].
Proof.
  intros H. induction l as [|x l IH]; [reflexivity|].
  cbn [flat_map]. rewrite H by now left.
  apply IH. intros y Hy. apply H. now right.
Qed.

Section DebugProperties.

Import DebugGradient.

Variable Element : Type.
Variable tagNameOf : Element -> jsstring.
Variable textContentOf : Element -> option jsstring.
Variable styleAttrOf : Element -> option jsstring.
Variable getComputedStyle : Element -> ComputedStyle.
Variable toLowerCase : jsstring -> jsstring.

Local Abbreviation inspect :=
  (inspectGradientStyles tagNameOf textContentOf styleAttrOf
     getComputedStyle toLowerCase).
Local Abbreviation compare :=
  (compareGradientStyles tagNameOf textContentOf styleAttrOf
     getComputedStyle toLowerCase).

(** [inspectGradientStyles] lists, in document order and once each, the
    elements that have a code unit of text other than white space or whose
    lower-cased tag name is one of the eleven block tags; the others are
    left out. *)
Theorem inspect_lists_kept_elements (textElements : list Element) :
  map element (inspect textElements)
  = filter
      (fun el =>
         match textContentOf el with
         | Some t => existsb (fun c => negb (is_space c)) t
         | None => false
         end
         || includes always_listed (toLowerCase (tagNameOf el)))
      textElements.
Proof.
  unfold inspectGradientStyles.
  induction textElements as [|el els IH]; [reflexivity|].
  cbn [flat_map filter]. rewrite map_app, IH. unfold inspect_element.
  destruct (textContentOf el) as [t|].
  - rewrite trim_nonempty, not_all_space.
    now destruct (existsb (fun c => negb (is_space c)) t
                  || includes always_listed (toLowerCase (tagNameOf el))).
  - now destruct (false
                  || includes always_listed (toLowerCase (tagNameOf el))).
Qed.

(** Every entry of [inspectGradientStyles] describes an element of the
    list it was given: the tag name is lower-cased, the text is cut to its
    first 50 code units, the style attribute is passed on, [hasText] says
    whether the text has a code unit other than white space, and the two
    [webkit] styles are never empty ([not set] stands in). *)
Theorem inspect_entry_fields
    (textElements : list Element) (info : GradientDebugInfo Element) :
  In info (inspect textElements) ->
  In (element info) textElements
  /\ tagName info = toLowerCase (tagNameOf (element info))
  /\ textContent info
     = match textContentOf (element info) with
       | Some t => firstn 50 t
       | None => []
       end
  /\ (List.length (textContent info) <= 50)%nat
  /\ inlineStyles info = styleAttrOf (element info)
  /\ hasText info
     = match textContentOf (element info) with
       | Some t => existsb (fun c => negb (is_space c)) t
       | None => false
       end
  /\ webkitTextFillColor (computedStyles info) <> []
  /\ webkitBackgroundClip (computedStyles info) <> [].
Proof.
  unfold inspectGradientStyles. intros H.
  apply in_flat_map in H as (el & Hel & H).
  unfold inspect_element in H.
  destruct (_ || _) in H; [|contradiction].
  destruct H as [<-|[]].
  cbn [element tagName computedStyles inlineStyles hasText textContent
       webkitTextFillColor webkitBackgroundClip].
  repeat split; try (apply or_default_nonempty; discriminate).
  - exact Hel.
  - destruct (textContentOf el); [apply or_default_nil | reflexivity].
  - destruct (textContentOf el) as [t|]; [|cbn; lia].
    rewrite or_default_nil. apply firstn_le_length.
  - destruct (textContentOf el) as [t|]; [|reflexivity].
    now rewrite trim_nonempty, not_all_space.
Qed.

Lemma push_if_differ_length label w b :
  (List.length (push_if_differ label w b) <= 1)%nat.
Proof. unfold push_if_differ. destruct (str_eqb w b); cbn; lia. Qed.

Lemma style_diffs_length (w b : GradientDebugInfo Element) :
  (List.length (style_diffs w b) <= 6)%nat.
Proof.
  unfold style_diffs. rewrite !length_app.
  repeat match goal with
         | |- context [List.length (push_if_differ ?l ?x ?y)] =>
             let H := fresh in
             pose proof (push_if_differ_length l x y) as H;
             generalize dependent (List.length (push_if_differ l x y));
             intros
         end.
  destruct (opt_str_eqb (inlineStyles w) (inlineStyles b)); cbn; lia.
Qed.

(** Every entry of [differences] pairs an element of the working document
    with the first element of the broken document that has the same tag
    name and the same first 30 code units of text, and carries between one
    and six lines, those of the six compared properties that differ. *)
Theorem compare_reports_sound
    (workingDoc brokenDoc : list Element) (d : Difference Element) :
  In d (differences (compare workingDoc brokenDoc)) ->
  In (diff_working d) (inspect workingDoc)
  /\ In (diff_broken d) (inspect brokenDoc)
  /\ find (same_element (diff_working d)) (inspect brokenDoc)
     = Some (diff_broken d)
  /\ key (diff_broken d) = key (diff_working d)
  /\ diff_tagName d = tagName (diff_working d)
  /\ diff_differences d = style_diffs (diff_working d) (diff_broken d)
  /\ (1 <= List.length (diff_differences d) <= 6)%nat.
Proof.
  cbn [compareGradientStyles differences]. intros H.
  apply in_flat_map in H as (w & Hw & H). unfold compare_element in H.
  destruct (find (same_element w) (inspect brokenDoc)) as [m|] eqn:E;
    [|contradiction].
  destruct (0 <? List.length (style_diffs w m))%nat eqn:El; [|contradiction].
  destruct H as [<-|[]]. cbn.
  pose proof (find_some _ _ E) as [Hm Hs].
  unfold same_element in Hs. apply andb_true_iff in Hs as [Ht Hx].
  apply str_eqb_eq in Ht, Hx. apply Nat.ltb_lt in El.
  pose proof (style_diffs_length w m).
  repeat split; try assumption; try lia.
  unfold key. now rewrite Ht, Hx.
Qed.

(** The entries of [differences] follow the order of the working document,
    at most one for each of its elements: an element is reported exactly
    when it has a partner in the broken document and one of the compared
    properties differs.  Elements without partner, on either side, are not
    reported. *)
Theorem compare_reports_in_order (workingDoc brokenDoc : list Element) :
  map diff_working (differences (compare workingDoc brokenDoc))
  = filter
      (fun w =>
         match find (same_element w) (inspect brokenDoc) with
         | Some m => (0 <? List.length (style_diffs w m))%nat
         | None => false
         end)
      (inspect workingDoc).
Proof.
  cbn [compareGradientStyles differences].
  induction (inspect workingDoc) as [|w ws IH]; [reflexivity|].
  cbn [flat_map filter]. rewrite map_app, IH. unfold compare_element.
  destruct (find (same_element w) (inspect brokenDoc)) as [m|];
    [|reflexivity].
  now destruct (0 <? List.length (style_diffs w m))%nat.
Qed.

(** [display], [visibility], [opacity] and [hasText] are not compared: an
    element whose colour, text fill colour, background image, the two
    background clips and style attribute equal those of its partner is not
    reported, whatever else differs. *)
Theorem compare_ignores_other_fields
    (brokenInfo : list (GradientDebugInfo Element))
    (w m : GradientDebugInfo Element) :
  find (same_element w) brokenInfo = Some m ->
  color (computedStyles w) = color (computedStyles m) ->
  webkitTextFillColor (computedStyles w)
  = webkitTextFillColor (computedStyles m) ->
  backgroundImage (computedStyles w) = backgroundImage (computedStyles m) ->
  backgroundClip (computedStyles w) = backgroundClip (computedStyles m) ->
  webkitBackgroundClip (computedStyles w)
  = webkitBackgroundClip (computedStyles m) ->
  inlineStyles w = inlineStyles m ->
  compare_element brokenInfo w = [].
Proof.
  intros E H1 H2 H3 H4 H5 H6. unfold compare_element. rewrite E.
  unfold style_diffs, push_if_differ.
  rewrite H1, H2, H3, H4, H5, H6, !str_eqb_refl.
  now rewrite (proj2 (opt_str_eqb_eq _ _) eq_refl).
Qed.

Lemma same_element_refl (w : GradientDebugInfo Element) :
  same_element w w = true.
Proof. unfold same_element. now rewrite !str_eqb_refl. Qed.

Lemma same_element_key (w b : GradientDebugInfo Element) :
  same_element w b = true <-> key b = key w.
Proof.
  unfold same_element, key. rewrite andb_true_iff, !str_eqb_eq.
  split; [intros [-> ->]; reflexivity | intros E; now inversion E].
Qed.

Lemma key_injective (l : list (GradientDebugInfo Element)) x y :
  NoDup (map key l) -> In x l -> In y l -> key x = key y -> x = y.
Proof.
  induction l as [|z l IH]; intros Hnd Hx Hy E; [contradiction|].
  cbn in Hnd. inversion Hnd as [|? ? Hz Hl]; subst.
  destruct Hx as [->|Hx], Hy as [->|Hy]; auto.
  - exfalso. apply Hz. rewrite E. now apply in_map.
  - exfalso. apply Hz. rewrite <- E. now apply in_map.
Qed.

(** A document compared with itself shows no difference, provided no two
    of its listed elements share tag name and first 30 code units of text
    (with such a pair, the later element is compared with the earlier
    one). *)
Theorem compare_self_no_difference (doc : list Element) :
  NoDup (map key (inspect doc)) ->
  differences (compare doc doc) = [].
Proof.
  intros Hnd. cbn [compareGradientStyles differences].
  assert (H : forall w, In w (inspect doc) ->
                        compare_element (inspect doc) w = []).
  { intros w Hw. unfold compare_element.
    destruct (find (same_element w) (inspect doc)) as [m|] eqn:E;
      [|reflexivity].
    pose proof (find_some _ _ E) as [Hm Hs].
    apply same_element_key in Hs.
    assert (m = w) by (apply (key_injective (inspect doc)); assumption).
    subst m. unfold style_diffs, push_if_differ.
    rewrite !str_eqb_refl.
    now rewrite (proj2 (opt_str_eqb_eq _ _) eq_refl). }
  now apply flat_map_all_nil.
Qed.

End DebugProperties.

Lemma inspect_entry_fields_witness :
  In DebugFixture.helloInfo (DebugFixture.inspect DebugFixture.workingDoc)
  /\ In (DebugGradient.element DebugFixture.helloInfo)
       DebugFixture.workingDoc
  /\ DebugGradient.tagName DebugFixture.helloInfo
     = DebugFixture.toLowerCase
         (DebugFixture.tagNameOf
            (DebugGradient.element DebugFixture.helloInfo)).
Proof.
  assert (H : In DebugFixture.helloInfo
                (DebugFixture.inspect DebugFixture.workingDoc))
    by (left; reflexivity).
  split; [exact H|].
  pose proof (inspect_entry_fields _ DebugFixture.tagNameOf
                DebugFixture.textContentOf DebugFixture.styleAttrOf
                DebugFixture.getComputedStyle DebugFixture.toLowerCase
                DebugFixture.workingDoc DebugFixture.helloInfo H) as P.
  exact (conj (proj1 P) (proj1 (proj2 P))).
Defined.

Lemma compare_reports_sound_witness :
  In DebugFixture.helloDifference
    (DebugGradient.differences
       (DebugFixture.compare DebugFixture.workingDoc DebugFixture.brokenDoc))
  /\ In (DebugGradient.diff_working DebugFixture.helloDifference)
       (DebugFixture.inspect DebugFixture.workingDoc)
  /\ In (DebugGradient.diff_broken DebugFixture.helloDifference)
       (DebugFixture.inspect DebugFixture.brokenDoc).
Proof.
  assert (H : In DebugFixture.helloDifference
                (DebugGradient.differences
                   (DebugFixture.compare DebugFixture.workingDoc
                      DebugFixture.brokenDoc)))
    by (left; reflexivity).
  split; [exact H|].
  pose proof (compare_reports_sound _ DebugFixture.tagNameOf
                DebugFixture.textContentOf DebugFixture.styleAttrOf
                DebugFixture.getComputedStyle DebugFixture.toLowerCase
                DebugFixture.workingDoc DebugFixture.brokenDoc
                DebugFixture.helloDifference H) as P.
  exact (conj (proj1 P) (proj1 (proj2 P))).
Defined.

Lemma compare_ignores_other_fields_witness :
  DebugGradient.compare_element [DebugFixture.hiddenHelloInfo]
    DebugFixture.helloInfo = [].
Proof.
  apply (compare_ignores_other_fields _ [DebugFixture.hiddenHelloInfo]
           DebugFixture.helloInfo DebugFixture.hiddenHelloInfo);
    reflexivity.
Defined.

Lemma compare_self_no_difference_witness :
  DebugGradient.differences
    (DebugFixture.compare DebugFixture.workingDoc DebugFixture.workingDoc)
  = [].
Proof.
  apply (compare_self_no_difference _ DebugFixture.tagNameOf
           DebugFixture.textContentOf DebugFixture.styleAttrOf
           DebugFixture.getComputedStyle DebugFixture.toLowerCase).
  repeat constructor; cbn; intuition discriminate.
Defined.

Section DocsProperties.

Import DebugGradient.

Variable Document : Type.
Variable same_doc : Document -> Document -> bool.
Hypothesis same_doc_eq : forall a b, same_doc a b = true <-> a = b.

Lemma includes_doc d docs : existsb (same_doc d) docs = true <-> In d docs.
Proof.
  rewrite existsb_exists. split.
  - intros (x & Hx & E). apply same_doc_eq in E. now subst.
  - intros H. exists d. split; [exact H | now apply same_doc_eq].
Qed.

Lemma add_iframes_spec iframes : forall docs,
  exists extra,
    add_iframes same_doc docs iframes = docs ++ extra
    /\ (forall d, In d extra <-> In (Some d) iframes /\ ~ In d docs)
    /\ NoDup extra.
Proof.
  induction iframes as [|[d|] rest IH]; intros docs; cbn [add_iframes].
  - exists []. rewrite app_nil_r.
    split; [reflexivity|]. split; [|constructor].
    intros d. cbn. tauto.
  - destruct (existsb (same_doc d) docs) eqn:E.
    + apply includes_doc in E.
      destruct (IH docs) as (extra & -> & Hin & Hnd).
      exists extra. split; [reflexivity|]. split; [|exact Hnd].
      intros x. rewrite Hin. cbn. split.
      * tauto.
      * intros [[Hx|Hx] Hn]; [|tauto].
        inversion Hx; subst. contradiction.
    + assert (Hd : ~ In d docs)
        by (intros Hx; apply includes_doc in Hx; congruence).
      destruct (IH (docs ++ [d])) as (extra & -> & Hin & Hnd).
      exists (d :: extra). rewrite <- app_assoc.
      split; [reflexivity|]. split.
      * intros x. cbn [In]. rewrite Hin, in_app_iff. cbn [In]. split.
        -- intros [<-|[Hx Hn]]; [tauto|]. tauto.
        -- intros [[Hx|Hx] Hn].
           ++ inversion Hx; subst. now left.
           ++ destruct (same_doc d x) eqn:Ex.
              ** apply same_doc_eq in Ex. now left.
              ** right. split; [exact Hx|].
                 intros [Hy|[Hy|[]]]; [tauto|]. subst x.
                 rewrite (proj2 (same_doc_eq d d) eq_refl) in Ex.
                 discriminate.
      * constructor; [|exact Hnd]. intros Hx. apply Hin in Hx.
        rewrite in_app_iff in Hx. cbn in Hx. tauto.
  - destruct (IH docs) as (extra & -> & Hin & Hnd).
    exists extra. split; [reflexivity|]. split; [|exact Hnd].
    intros x. rewrite Hin. cbn. split; [tauto|].
    intros [[Hx|Hx] Hn]; [discriminate | tauto].
Qed.

(** [getCurrentDocs] returns the documents of the renderers first, in their
    order, then the content documents of the iframes that are not listed
    yet: every document of a renderer or of an iframe is in the result, an
    iframe adds no duplicate, and nothing else is in it. *)
Theorem current_docs_complete
    (foliateViews : list (option (option (list (option Document)))))
    (iframes : list (option Document)) :
  exists extra,
    getCurrentDocs same_doc foliateViews iframes
    = flat_map view_docs foliateViews ++ extra
    /\ NoDup extra
    /\ (forall d, In d extra ->
                  ~ In d (flat_map view_docs foliateViews))
    /\ (forall d, In d (getCurrentDocs same_doc foliateViews iframes)
                  <-> In d (flat_map view_docs foliateViews)
                      \/ In (Some d) iframes).
Proof.
  unfold getCurrentDocs.
  destruct (add_iframes_spec iframes (flat_map view_docs foliateViews))
    as (extra & -> & Hin & Hnd).
  exists extra. repeat split; try assumption.
  - intros d H. now apply Hin in H.
  - rewrite in_app_iff. intros [H|H]; [now left|]. apply Hin in H. tauto.
  - rewrite in_app_iff. intros [H|H]; [now left|].
    destruct (existsb (same_doc d) (flat_map view_docs foliateViews))
      eqn:E.
    + left. now apply includes_doc.
    + right. apply Hin. split; [exact H|]. intros H'.
      apply includes_doc in H'. congruence.
Qed.

(** [getCurrentDoc] returns [null] exactly when no renderer has a document
    and no iframe has a content document; otherwise it returns the first
    document of the renderers, or without any the content document of the
    first iframe that has one. *)
Theorem current_doc_first
    (foliateViews : list (option (option (list (option Document)))))
    (iframes : list (option Document)) :
  (getCurrentDoc same_doc foliateViews iframes = None
   <-> flat_map view_docs foliateViews = []
       /\ forall d, ~ In (Some d) iframes)
  /\ (forall d rest,
        flat_map view_docs foliateViews = d :: rest ->
        getCurrentDoc same_doc foliateViews iframes = Some d)
  /\ (forall without d rest,
        flat_map view_docs foliateViews = [] ->
        Forall (fun frame => frame = None) without ->
        iframes = without ++ Some d :: rest ->
        getCurrentDoc same_doc foliateViews iframes = Some d).
Proof.
  unfold getCurrentDoc, getCurrentDocs.
  destruct (add_iframes_spec iframes (flat_map view_docs foliateViews))
    as (extra & E & Hin & _).
  split; [split|split].
  - rewrite E. intros Hn.
    destruct (flat_map view_docs foliateViews) as [|x l]; [|discriminate].
    split; [reflexivity|]. intros d Hd.
    destruct extra as [|y extra]; [|discriminate].
    apply (proj2 (Hin d)). split; [exact Hd | intros []].
  - intros [Hv Hi]. rewrite E, Hv.
    destruct extra as [|y extra]; [reflexivity|].
    exfalso. apply (Hi y). apply (Hin y). now left.
  - intros d rest Hv. rewrite E, Hv. reflexivity.
  - intros without d rest Hv Hw ->. rewrite Hv. clear E Hin.
    induction Hw as [|frame without -> _ IH]; cbn [app add_iframes existsb].
    + destruct (add_iframes_spec rest [d]) as (extra' & -> & _).
      reflexivity.
    + exact IH.
Qed.

End DocsProperties.

Lemma current_doc_first_witness :
  DebugGradient.getCurrentDoc Nat.eqb
    [None; Some None; Some (Some [None; Some 7%nat; Some 8%nat])]
    [Some 8%nat; Some 9%nat]
  = Some 7%nat
  /\ DebugGradient.getCurrentDoc Nat.eqb [None; Some (Some [None])]
       [None; Some 4%nat; Some 5%nat]
     = Some 4%nat.
Proof.
  pose proof (current_doc_first nat Nat.eqb Nat.eqb_eq
                [None; Some None; Some (Some [None; Some 7%nat; Some 8%nat])]
                [Some 8%nat; Some 9%nat]) as P.
  pose proof (current_doc_first nat Nat.eqb Nat.eqb_eq
                [None; Some (Some [None])] [None; Some 4%nat; Some 5%nat])
    as Q.
  split.
  - exact (proj1 (proj2 P) 7%nat [8%nat] eq_refl).
  - exact (proj2 (proj2 Q) [None] 4%nat [Some 5%nat] eq_refl
             (Forall_cons None eq_refl (Forall_nil _)) eq_refl).
Defined.

Lemma current_docs_complete_witness :
  exists extra,
    DebugGradient.getCurrentDocs Nat.eqb
      [Some (Some [Some 7%nat; None; Some 8%nat])] [Some 8%nat; Some 9%nat]
    = flat_map DebugGradient.view_docs
        [Some (Some [Some 7%nat; None; Some 8%nat])] ++ extra
    /\ NoDup extra
    /\ (forall d, In d extra ->
                  ~ In d (flat_map DebugGradient.view_docs
                            [Some (Some [Some 7%nat; None; Some 8%nat])]))
    /\ (forall d,
          In d (DebugGradient.getCurrentDocs Nat.eqb
                  [Some (Some [Some 7%nat; None; Some 8%nat])]
                  [Some 8%nat; Some 9%nat])
          <-> In d (flat_map DebugGradient.view_docs
                      [Some (Some [Some 7%nat; None; Some 8%nat])])
              \/ In (Some d) [Some 8%nat; Some 9%nat]).
Proof.
  exact (current_docs_complete nat Nat.eqb Nat.eqb_eq
           [Some (Some [Some 7%nat; None; Some 8%nat])]
           [Some 8%nat; Some 9%nat]).
Defined.

(** * Composition of the scan *)

Lemma match_p_needs_lt c s : c <> 60 -> match_p (c :: s) = None.
Proof.
  intros Hc. destruct (match_p (c :: s)) as [[m r]|] eqn:E; [|reflexivity].
  apply match_p_sound in E as [E (p & q & _ & _ & Hm & _)].
  rewrite Hm in E. cbn in E. inversion E. congruence.
Qed.

(** Text without [<] in front of the content passes as it is and takes no
    step of the counter: the rest is transformed as if it stood alone, from
    the same counter.  This holds for any callback. *)
Theorem plain_prefix_passes {St : Type}
    (f : St -> jsstring -> jsstring -> jsstring * St)
    (st : St) (pre s : jsstring) :
  existsb (N.eqb 60) pre = false ->
  replace_p f st (pre ++ s)
  = (pre ++ fst (replace_p f st s), snd (replace_p f st s)).
Proof.
  intros H. induction pre as [|c pre IH].
  - cbn [app]. now destruct (replace_p f st s).
  - cbn in H. apply orb_false_iff in H as [Hc Hpre].
    cbn [app]. rewrite replace_p_skip
      by (apply match_p_needs_lt; intros ->; discriminate).
    now rewrite (IH Hpre).
Qed.

Lemma plain_prefix_passes_witness :
  replace_p ClassesOnly.callback 2%nat (js "Chapter 1. " ++ js "<p>a</p>")
  = (js "Chapter 1. "
     ++ fst (replace_p ClassesOnly.callback 2%nat (js "<p>a</p>")),
     snd (replace_p ClassesOnly.callback 2%nat (js "<p>a</p>"))).
Proof.
  exact (plain_prefix_passes ClassesOnly.callback 2%nat (js "Chapter 1. ")
           (js "<p>a</p>") eq_refl).
Defined.

(** The tag ends at the first [>], also when that [>] stands inside an
    attribute value: what follows it up to the real end of the tag becomes
    the start of the body, and the class attribute is added in front of that
    [>]. *)
Theorem gt_in_attribute_cuts_tag (a1 a2 i r : jsstring) :
  no_gt a1 -> has_close (a2 ++ js ">" ++ i) = false ->
  blocks (js "<p" ++ a1 ++ js ">" ++ a2 ++ js ">" ++ i ++ js "</p>" ++ r)
  = block 112 a1 (a2 ++ js ">" ++ i) 112 :: blocks r
  /\ fst (ClassesOnly.callback 0 a1 (a2 ++ js ">" ++ i))
     = js "<p" ++ add_class (js "g-line g-l0") a1 ++ js ">" ++ a2 ++ js ">"
       ++ i ++ js "</p>".
Proof.
  intros Ha Hi. split.
  - assert (E : match_p (js "<p" ++ a1 ++ js ">" ++ a2 ++ js ">" ++ i
                         ++ js "</p>" ++ r)
                = Some (block 112 a1 (a2 ++ js ">" ++ i) 112, r)).
    { rewrite <- (match_p_complete 112 a1 (a2 ++ js ">" ++ i) 112 r)
        by (reflexivity || assumption).
      f_equal. cbn [whole block]. now norm_app. }
    unfold blocks. now rewrite (scan_match _ _ _ E).
  - unfold ClassesOnly.callback. cbn [fst]. now norm_app.
Qed.

Lemma gt_in_attribute_cuts_tag_witness :
  blocks (js "<p" ++ js " title='a" ++ js ">" ++ js "b'" ++ js ">"
          ++ js "text" ++ js "</p>" ++ [])
  = block 112 (js " title='a") (js "b'" ++ js ">" ++ js "text") 112
    :: blocks []
  /\ fst (ClassesOnly.callback 0 (js " title='a")
            (js "b'" ++ js ">" ++ js "text"))
     = js "<p" ++ add_class (js "g-line g-l0") (js " title='a") ++ js ">"
       ++ js "b'" ++ js ">" ++ js "text" ++ js "</p>".
Proof.
  exact (gt_in_attribute_cuts_tag (js " title='a") (js "b'") (js "text") []
           eq_refl eq_refl).
Defined.
